(** * The learning-progress engine of the UK area-codes trainer (src/App.js)

    A shallow embedding of the quiz engine of [App.js]: question selection,
    answer checking, mastery / review / mistake tracking, the dictionary
    status cycle and the start-up reads of [localStorage].

    The component is a React function component.  Each render closes over
    one snapshot of the [useState] values; a handler created by that render
    reads the snapshot and queues state updates, which React applies after
    the handler has finished.  The embedding keeps this split: a handler is
    a function of the snapshot that yields a log of effects, and the world
    step applies the log to the current state.  A [setTimeout] callback keeps
    the snapshot of the render that created it. *)

From Stdlib Require Import ZArith QArith Qround Lia Ascii String List.
From Stdlib Require Import DecimalString DecimalZ DecimalPos Permutation Sorted.
From stdpp Require Import base option list gmap strings.

Local Open Scope string_scope.
Local Open Scope list_scope.
Local Open Scope Z_scope.

(** ** JavaScript strings

    A string is a sequence of UTF-16 code units.  This development covers
    the code units below 256, one [ascii] each; on that range whitespace
    ([\s]) and [toLowerCase] are the tables below. *)

Module JsString.

(** The code units below 256 matched by the regular expression class [\s]:
    TAB, LF, VT, FF, CR, SPACE and NO-BREAK SPACE. *)
Definition is_space (c : ascii) : bool :=
  let n := N_of_ascii c in
  (((9 <=? n) && (n <=? 13)) || (n =? 32) || (n =? 160))%N.

(** [toLowerCase] on one code unit: A-Z and the Latin-1 capitals
    U+00C0-U+00DE (U+00D7, the multiplication sign, has no case). *)
Definition lower_char (c : ascii) : ascii :=
  let n := N_of_ascii c in
  if (((65 <=? n) && (n <=? 90))
      || ((192 <=? n) && (n <=? 222) && negb (n =? 215)))%N
  then ascii_of_N (n + 32) else c.

Fixpoint toLowerCase (s : string) : string :=
  match s with
  | EmptyString => EmptyString
  | String c s' => String (lower_char c) (toLowerCase s')
  end.

(** [s.replace(/\s+/g, repl)]: every maximal run of whitespace is one
    match and is replaced by [repl].  [in_run] says that the previous code
    unit belonged to the match in progress. *)
Fixpoint replace_space_runs (repl : string) (in_run : bool) (s : string)
  : string :=
  match s with
  | EmptyString => EmptyString
  | String c s' =>
      if is_space c
      then (if in_run then replace_space_runs repl true s'
            else repl +:+ replace_space_runs repl true s')
      else String c (replace_space_runs repl false s')
  end.

(** [s.replace(/\s+/g, "")] *)
Definition remove_spaces (s : string) : string :=
  replace_space_runs "" false s.

(** [s.startsWith(p)] *)
Fixpoint startsWith (s p : string) {struct p} : bool :=
  match p, s with
  | EmptyString, _ => true
  | String _ _, EmptyString => false
  | String a p', String b s' => Ascii.eqb a b && startsWith s' p'
  end.

(** [s.includes(t)]: [t] occurs at some position of [s]. *)
Fixpoint includes (s t : string) : bool :=
  startsWith s t
  || match s with
     | EmptyString => false
     | String _ s' => includes s' t
     end.

(** The declarative counterparts used in the statements. *)
Fixpoint strip_whitespace (s : string) : string :=
  match s with
  | EmptyString => EmptyString
  | String c s' =>
      if is_space c then strip_whitespace s'
      else String c (strip_whitespace s')
  end.

Definition is_substring (t s : string) : Prop :=
  exists pre post : string, s = pre +:+ t +:+ post.

End JsString.

(** [arr.includes(x)] on an array of strings (strict equality). *)
Fixpoint Array_includes (arr : list string) (x : string) : bool :=
  match arr with
  | [] => false
  | y :: arr' => String.eqb y x || Array_includes arr' x
  end.

(** ** JavaScript numbers

    The mistake counter is a JavaScript Number: an IEEE 754 double, read
    from [localStorage] by [parseInt] and raised by [prev + 1].  On that path
    only [NaN], the two infinities and integers occur, so the finite values
    are carried by the integer they denote; [-0] prints as [0] and adds like
    [0], and is identified with it.  Every operation rounds to the nearest
    double, ties to the even significand; the finite values that are
    doubles are those that are their own rounding. *)

Module Number.

Inductive t :=
| NaN
| Infinity (negative : bool)
| Fin (z : Z).

(** [a / 2 ^ e] rounded to the nearest integer, ties to the even one. *)
Definition round_even (a e : Z) : Z :=
  let q := a / 2 ^ e in
  let r := a mod 2 ^ e in
  let half := 2 ^ (e - 1) in
  if r <? half then q
  else if half <? r then q + 1
  else if Z.even q then q else q + 1.

(** The double nearest to the integer [z]: exact below [2 ^ 53], otherwise
    53 significant bits are kept; from [2 ^ 1024] on the rounded value is
    an infinity. *)
Definition of_Z (z : Z) : t :=
  let a := Z.abs z in
  if a <? 2 ^ 53 then Fin z
  else
    let e := Z.log2 a - 52 in
    let v := round_even a e * 2 ^ e in
    if 2 ^ 1024 <=? v then Infinity (z <? 0) else Fin (Z.sgn z * v).

(** [x + y] *)
Definition add (x y : t) : t :=
  match x, y with
  | NaN, _ | _, NaN => NaN
  | Infinity a, Infinity b => if Bool.eqb a b then Infinity a else NaN
  | Infinity a, Fin _ | Fin _, Infinity a => Infinity a
  | Fin a, Fin b => of_Z (a + b)
  end.

(** The decimal digits of a natural number. *)
Definition decimal_digits (a : Z) : string :=
  NilZero.string_of_uint (N.to_uint (Z.to_N a)).

(** [Number.prototype.toString] writes a value as [s * 10 ^ (n - k)] with
    [k] digits [s], for the least [k] for which some such decimal reads
    back as the value; among the decimals of that length the one closest
    to the value is taken, and of two equally close ones the one with even
    [s].  For an integer [a] of [d] digits, the decimals of [k] digits
    next to [a] are the two multiples of [10 ^ (d - k)] around it and
    [10 ^ d]. *)
Definition reads_as (a : Z) (k : Z) (sn : Z * Z) : bool :=
  let (s, n) := sn in
  (10 ^ (k - 1) <=? s) && (s <? 10 ^ k)
  && match of_Z (s * 10 ^ (n - k)) with
     | Fin v => v =? a
     | _ => false
     end.

Definition closer (a k : Z) (x y : Z * Z) : Z * Z :=
  let dx := Z.abs (x.1 * 10 ^ (x.2 - k) - a) in
  let dy := Z.abs (y.1 * 10 ^ (y.2 - k) - a) in
  if dx <? dy then x
  else if dy <? dx then y
  else if Z.even x.1 then x else y.

Definition shortest_with (a d k : Z) : option (Z * Z) :=
  let s := a / 10 ^ (d - k) in
  match List.filter (reads_as a k)
                    [(s, d); (s + 1, d); (10 ^ (k - 1), d + 1)] with
  | [] => None
  | x :: xs => Some (fold_left (closer a k) xs x)
  end.

(** Seventeen digits tell any two doubles apart. *)
Fixpoint shortest (a d : Z) (tries : nat) (k : Z) : Z * Z * Z :=
  match tries with
  | O => (a, d, d)
  | S tries' =>
      match shortest_with a d k with
      | Some (s, n) => (s, n, k)
      | None => shortest a d tries' (k + 1)
      end
  end.

(** The text of an integer [a] from [2 ^ 53] on: up to 21 digits, the
    digits of [s] and [n - k] zeros; beyond, the exponent form: one digit,
    the others behind a point, [e+] and the decimal exponent. *)
Definition large (a : Z) : string :=
  let d := Z.of_nat (String.length (decimal_digits a)) in
  let '(s, n, k) := shortest a d 17 1 in
  let digits := decimal_digits s in
  if n <=? 21 then
    digits +:+ string_of_list_ascii (repeat "0"%char (Z.to_nat (n - k)))
  else
    let mantissa :=
      match digits with
      | String c (String _ _ as rest) => String c ("." +:+ rest)
      | _ => digits
      end in
    mantissa +:+ "e+" +:+ decimal_digits (n - 1).

(** [x.toString()].  Below [2 ^ 53] every integer is a double, so that the
    shortest decimal that reads back as the integer is the integer
    itself. *)
Definition toString (x : t) : string :=
  match x with
  | NaN => "NaN"
  | Infinity negative => if negative then "-Infinity" else "Infinity"
  | Fin z =>
      if Z.abs z <? 2 ^ 53 then NilZero.string_of_int (Z.to_int z)
      else if z <? 0 then "-" +:+ large (- z)
      else large z
  end.

(** The integers on which [+ 1] is exact. *)
Definition safe (z : Z) : Prop := - 2 ^ 53 <= z < 2 ^ 53.

(** The values that are doubles: a finite one is its own rounding. *)
Definition is_double (x : t) : Prop :=
  match x with
  | Fin z => of_Z z = Fin z
  | _ => True
  end.

End Number.

Coercion Number.Fin : Z >-> Number.t.

(** ** Data *)

(** A catalog row after the CSV load.  The coordinates are decimal numbers
    read by [parseFloat]; the engine only hands them to the map. *)
Record Entry := mkEntry {
  code : string;
  place : string;
  latitude : Q;
  longitude : Q
}.

(** The [useState] cells of [App]. *)
Record State := mkState {
  areaCodes : list Entry;
  loading : bool;
  appSection : string;
  mode : string;
  currentQuestion : option Entry;
  userInput : string;
  feedback : string;
  autoNext : bool;
  shouldZoom : bool;
  showAllDots : bool;
  searchTerm : string;
  highlightCode : option string;
  dictStatus : gmap string Z;
  correctList : list string;
  reviewList : list string;
  mistakeCount : Number.t
}.

(** ** Effects of a handler *)

Inductive Exn :=
| TypeError (msg : string)
| SyntaxError (msg : string).

(** The closures handed to [setTimeout]. *)
Inductive Callback :=
| FocusInput
    (* () => { if (inputRef.current) inputRef.current.focus(); } *)
| AutoAdvance (render : State)
    (* () => generateQuestion(), with the [generateQuestion] of [render] *).

(** What a handler body does, call by call.  The setters of [dictStatus]
    and [mistakeCount] are called with an updater function of the previous
    value; [setMistakeCount(0)] is the constant updater. *)
Inductive Effect :=
| SetAreaCodes (v : list Entry)
| SetLoading (v : bool)
| SetAppSection (v : string)
| SetMode (v : string)
| SetCurrentQuestion (v : option Entry)
| SetUserInput (v : string)
| SetFeedback (v : string)
| SetAutoNext (v : bool)
| SetShouldZoom (v : bool)
| SetShowAllDots (v : bool)
| SetSearchTerm (v : string)
| SetHighlightCode (v : option string)
| SetDictStatus (upd : gmap string Z -> gmap string Z)
| SetCorrectList (v : list string)
| SetReviewList (v : list string)
| SetMistakeCount (upd : Number.t -> Number.t)
| SetTimeout (cb : Callback) (ms : Z)
| StorageRemoveItem (key : string)
| PreventDefault
| StopPropagation
| InputFocus
| OpenPopup (code : string).

Inductive Completion (A : Type) :=
| Normal (a : A)
| Throw (e : Exn).
Arguments Normal {A} a.
Arguments Throw {A} e.

(** A handler body: the effects it performed, in order, and how it ended. *)
Definition Handler (A : Type) : Type := list Effect * Completion A.

#[global] Instance handler_ret : MRet Handler := fun A a => ([], Normal a).

#[global] Instance handler_bind : MBind Handler := fun A B k m =>
  match m with
  | (es, Normal a) => let (es', r) := k a in (es ++ es', r)
  | (es, Throw e) => (es, Throw e)
  end.

Definition emit (e : Effect) : Handler unit := ([e], Normal tt).

Definition throw {A} (e : Exn) : Handler A := ([], Throw e).

(** [when b h]: [if (b) { h }]. *)
Definition when (b : bool) (h : Handler unit) : Handler unit :=
  if b then h else mret tt.

(** The setter calls and timers of a handler body, and its completion. *)
Definition effects {A} (h : Handler A) : list Effect := fst h.
Definition completion {A} (h : Handler A) : Completion A := snd h.

(** ** Applying queued updates

    React applies the queued setter calls, in order, to the state current at
    that moment: a value replaces the cell, an updater function is applied
    to it. *)

Definition with_areaCodes (v : list Entry) (s : State) : State :=
  mkState v (loading s) (appSection s) (mode s) (currentQuestion s)
    (userInput s) (feedback s) (autoNext s) (shouldZoom s) (showAllDots s)
    (searchTerm s) (highlightCode s) (dictStatus s) (correctList s)
    (reviewList s) (mistakeCount s).

Definition with_loading (v : bool) (s : State) : State :=
  mkState (areaCodes s) v (appSection s) (mode s) (currentQuestion s)
    (userInput s) (feedback s) (autoNext s) (shouldZoom s) (showAllDots s)
    (searchTerm s) (highlightCode s) (dictStatus s) (correctList s)
    (reviewList s) (mistakeCount s).

Definition with_appSection (v : string) (s : State) : State :=
  mkState (areaCodes s) (loading s) v (mode s) (currentQuestion s)
    (userInput s) (feedback s) (autoNext s) (shouldZoom s) (showAllDots s)
    (searchTerm s) (highlightCode s) (dictStatus s) (correctList s)
    (reviewList s) (mistakeCount s).

Definition with_mode (v : string) (s : State) : State :=
  mkState (areaCodes s) (loading s) (appSection s) v (currentQuestion s)
    (userInput s) (feedback s) (autoNext s) (shouldZoom s) (showAllDots s)
    (searchTerm s) (highlightCode s) (dictStatus s) (correctList s)
    (reviewList s) (mistakeCount s).

Definition with_currentQuestion (v : option Entry) (s : State) : State :=
  mkState (areaCodes s) (loading s) (appSection s) (mode s) v (userInput s)
    (feedback s) (autoNext s) (shouldZoom s) (showAllDots s) (searchTerm s)
    (highlightCode s) (dictStatus s) (correctList s) (reviewList s)
    (mistakeCount s).

Definition with_userInput (v : string) (s : State) : State :=
  mkState (areaCodes s) (loading s) (appSection s) (mode s)
    (currentQuestion s) v (feedback s) (autoNext s) (shouldZoom s)
    (showAllDots s) (searchTerm s) (highlightCode s) (dictStatus s)
    (correctList s) (reviewList s) (mistakeCount s).

Definition with_feedback (v : string) (s : State) : State :=
  mkState (areaCodes s) (loading s) (appSection s) (mode s)
    (currentQuestion s) (userInput s) v (autoNext s) (shouldZoom s)
    (showAllDots s) (searchTerm s) (highlightCode s) (dictStatus s)
    (correctList s) (reviewList s) (mistakeCount s).

Definition with_autoNext (v : bool) (s : State) : State :=
  mkState (areaCodes s) (loading s) (appSection s) (mode s)
    (currentQuestion s) (userInput s) (feedback s) v (shouldZoom s)
    (showAllDots s) (searchTerm s) (highlightCode s) (dictStatus s)
    (correctList s) (reviewList s) (mistakeCount s).

Definition with_shouldZoom (v : bool) (s : State) : State :=
  mkState (areaCodes s) (loading s) (appSection s) (mode s)
    (currentQuestion s) (userInput s) (feedback s) (autoNext s) v
    (showAllDots s) (searchTerm s) (highlightCode s) (dictStatus s)
    (correctList s) (reviewList s) (mistakeCount s).

Definition with_showAllDots (v : bool) (s : State) : State :=
  mkState (areaCodes s) (loading s) (appSection s) (mode s)
    (currentQuestion s) (userInput s) (feedback s) (autoNext s)
    (shouldZoom s) v (searchTerm s) (highlightCode s) (dictStatus s)
    (correctList s) (reviewList s) (mistakeCount s).

Definition with_searchTerm (v : string) (s : State) : State :=
  mkState (areaCodes s) (loading s) (appSection s) (mode s)
    (currentQuestion s) (userInput s) (feedback s) (autoNext s)
    (shouldZoom s) (showAllDots s) v (highlightCode s) (dictStatus s)
    (correctList s) (reviewList s) (mistakeCount s).

Definition with_highlightCode (v : option string) (s : State) : State :=
  mkState (areaCodes s) (loading s) (appSection s) (mode s)
    (currentQuestion s) (userInput s) (feedback s) (autoNext s)
    (shouldZoom s) (showAllDots s) (searchTerm s) v (dictStatus s)
    (correctList s) (reviewList s) (mistakeCount s).

Definition with_dictStatus (v : gmap string Z) (s : State) : State :=
  mkState (areaCodes s) (loading s) (appSection s) (mode s)
    (currentQuestion s) (userInput s) (feedback s) (autoNext s)
    (shouldZoom s) (showAllDots s) (searchTerm s) (highlightCode s) v
    (correctList s) (reviewList s) (mistakeCount s).

Definition with_correctList (v : list string) (s : State) : State :=
  mkState (areaCodes s) (loading s) (appSection s) (mode s)
    (currentQuestion s) (userInput s) (feedback s) (autoNext s)
    (shouldZoom s) (showAllDots s) (searchTerm s) (highlightCode s)
    (dictStatus s) v (reviewList s) (mistakeCount s).

Definition with_reviewList (v : list string) (s : State) : State :=
  mkState (areaCodes s) (loading s) (appSection s) (mode s)
    (currentQuestion s) (userInput s) (feedback s) (autoNext s)
    (shouldZoom s) (showAllDots s) (searchTerm s) (highlightCode s)
    (dictStatus s) (correctList s) v (mistakeCount s).

Definition with_mistakeCount (v : Number.t) (s : State) : State :=
  mkState (areaCodes s) (loading s) (appSection s) (mode s)
    (currentQuestion s) (userInput s) (feedback s) (autoNext s)
    (shouldZoom s) (showAllDots s) (searchTerm s) (highlightCode s)
    (dictStatus s) (correctList s) (reviewList s) v.


Definition apply_effect (s : State) (e : Effect) : State :=
  match e with
  | SetAreaCodes v => with_areaCodes v s
  | SetLoading v => with_loading v s
  | SetAppSection v => with_appSection v s
  | SetMode v => with_mode v s
  | SetCurrentQuestion v => with_currentQuestion v s
  | SetUserInput v => with_userInput v s
  | SetFeedback v => with_feedback v s
  | SetAutoNext v => with_autoNext v s
  | SetShouldZoom v => with_shouldZoom v s
  | SetShowAllDots v => with_showAllDots v s
  | SetSearchTerm v => with_searchTerm v s
  | SetHighlightCode v => with_highlightCode v s
  | SetDictStatus upd => with_dictStatus (upd (dictStatus s)) s
  | SetCorrectList v => with_correctList v s
  | SetReviewList v => with_reviewList v s
  | SetMistakeCount upd => with_mistakeCount (upd (mistakeCount s)) s
  | SetTimeout _ _ | StorageRemoveItem _ | PreventDefault | StopPropagation
  | InputFocus | OpenPopup _ => s
  end.

Definition apply_effects (s : State) (es : list Effect) : State :=
  fold_left apply_effect es s.

(** The callbacks registered by a handler body, in order. *)
Fixpoint scheduled (es : list Effect) : list Callback :=
  match es with
  | [] => []
  | SetTimeout cb _ :: es' => cb :: scheduled es'
  | _ :: es' => scheduled es'
  end.

(** ** The quiz engine (App.js, "GAME LOGIC") *)

Import JsString.

(** [areaCodes.filter((item) => !correctList.includes(item.code))] *)
Definition pending (s : State) : list Entry :=
  List.filter (fun item => negb (Array_includes (correctList s) (code item)))
              (areaCodes s).

(** [Math.floor(Math.random() * n)], for the draw [u] of [Math.random()].
    The draw is a number of the interval from 0 (included) to 1 (excluded).
    The product is taken exactly, where the code rounds it to a double:
    when the double product rounds up to an integer [m], the code draws the
    index [m] and this definition the index [m - 1]; both are below [n]. *)
Definition random_index (u : Q) (n : nat) : Z :=
  Qfloor (u * inject_Z (Z.of_nat n)).

(** [arr[i]]: out of range the read gives [undefined], which is as falsy as
    [null] wherever the question is tested. *)
Definition array_get {A} (arr : list A) (i : Z) : option A :=
  if i <? 0 then None else arr !! Z.to_nat i.

Definition generateQuestion (s : State) (specificPlace : option Entry) (u : Q)
  : Handler unit :=
  emit (SetFeedback "");;
  emit (SetUserInput "");;
  emit (SetTimeout FocusInput 50);;
  match specificPlace with
  | Some location =>
      emit (SetCurrentQuestion (Some location));;
      emit (SetShouldZoom false)
  | None =>
      let pending := pending s in
      if (length pending =? 0)%nat then
        emit (SetFeedback "🎉 You have mastered EVERY UK code!");;
        emit (SetCurrentQuestion None)
      else
        let nextQ := array_get pending (random_index u (length pending)) in
        emit (SetCurrentQuestion nextQ);;
        emit (SetShouldZoom true)
  end.

(** The effect of line 173, run after a render in which [loading],
    [areaCodes] or [appSection] changed. *)
Definition startEffect (s : State) (u : Q) : Handler unit :=
  when (String.eqb (appSection s) "GAME"
        && negb (loading s)
        && (0 <? length (areaCodes s))%nat
        && negb (bool_decide (is_Some (currentQuestion s))))
       (generateQuestion s None u).

Definition addToReviewList (s : State) (code : string) : Handler unit :=
  when (negb (Array_includes (reviewList s) code))
       (emit (SetReviewList (reviewList s ++ [code]))).

(** The [isCorrect] flag computed by [handleSubmit] for the active
    question [q]. *)
Definition isCorrect (mode : string) (q : Entry) (userInput : string) : bool :=
  let inputClean := toLowerCase (remove_spaces userInput) in
  if String.eqb mode "nameToCode" then
    let answerClean := toLowerCase (remove_spaces (code q)) in
    let inputClean :=
      if negb (startsWith inputClean "0") then "0" +:+ inputClean
      else inputClean in
    String.eqb inputClean answerClean
  else
    includes (toLowerCase (place q)) inputClean.

Definition handleSubmit (s : State) : Handler unit :=
  emit PreventDefault;;
  match currentQuestion s with
  | None => mret tt
  | Some q =>
      if isCorrect (mode s) q (userInput s) then
        emit (SetFeedback "✅ Correct!");;
        when (negb (Array_includes (correctList s) (code q)))
             (emit (SetCorrectList (correctList s ++ [code q])));;
        if autoNext s then emit (SetTimeout (AutoAdvance s) 1000)
        else emit (SetFeedback "✅ Correct! Select next location on map.")
      else
        emit (SetFeedback "❌ Incorrect. Try again!");;
        emit (SetMistakeCount (fun prev => Number.add prev 1));;
        addToReviewList s (code q);;
        emit InputFocus
  end.

(** [currentQuestion.code] and [currentQuestion.place]: reading a property
    of [null] throws a [TypeError]. *)
Definition property {A} (q : option Entry) (name : string) (get : Entry -> A)
  : Handler A :=
  match q with
  | Some e => mret (get e)
  | None =>
      throw (TypeError ("Cannot read properties of null (reading '"
                        +:+ name +:+ "')"))
  end.

Definition revealAnswer (s : State) : Handler unit :=
  emit (SetMistakeCount (fun prev => Number.add prev 1));;
  c ← property (currentQuestion s) "code" code;
  addToReviewList s c;;
  answer ← (if String.eqb (mode s) "nameToCode"
            then property (currentQuestion s) "code" code
            else property (currentQuestion s) "place" place);
  emit (SetFeedback ("The answer is: " +:+ answer)).

(** [confirmed] is the answer of [window.confirm]. *)
Definition resetProgress (s : State) (confirmed : bool) (u : Q)
  : Handler unit :=
  when confirmed
       (emit (SetCorrectList []);;
        emit (SetReviewList []);;
        emit (SetMistakeCount (fun _ => 0));;
        emit (StorageRemoveItem "uk_codes_mastered");;
        emit (StorageRemoveItem "uk_codes_review");;
        emit (StorageRemoveItem "uk_codes_mistakes");;
        generateQuestion s None u).

(** ** Dictionary logic *)

(** [dictStatus[code] || 0] *)
Definition status_of (d : gmap string Z) (code : string) : Z :=
  default 0 (d !! code).

Definition cycleStatus (s : State) (code : string) : Handler unit :=
  emit StopPropagation;;
  let currentStatus := status_of (dictStatus s) code in
  let nextStatus := Z.rem (currentStatus + 1) 3 in
  emit (SetDictStatus (fun prev => <[code := nextStatus]> prev)).

(** [markerRefs.current] holds the marker of every catalog entry drawn on
    the map; in the dictionary section, where this handler is bound, every
    entry of [areaCodes] is drawn. *)
Definition jumpToLocation (s : State) (location : Entry) : Handler unit :=
  emit (SetCurrentQuestion (Some location));;
  emit (SetShouldZoom true);;
  when (existsb (fun e => String.eqb (code e) (code location)) (areaCodes s))
       (emit (OpenPopup (code location))).

(** [filteredDictionary] *)
Definition filteredDictionary (s : State) : list Entry :=
  List.filter
    (fun item =>
       includes (toLowerCase (place item)) (toLowerCase (searchTerm s))
       || includes (remove_spaces (code item)) (searchTerm s))
    (areaCodes s).

(** ** The event loop

    The browser runs one task at a time: a user event, or a timer callback
    that is due.  After each task React commits the queued updates and
    renders again, so the handlers bound to the page always belong to the
    latest render, while a pending timer callback still belongs to the
    render that registered it.  Delays are kept in the effect log; the
    world only records which callbacks are pending, and any of them may be
    the next one to run. *)

Record World := mkWorld {
  st : State;
  timers : list Callback
}.

(** Commit the effects of a task.  Updates queued before an exception are
    committed as well. *)
Definition commit (w : World) (h : Handler unit) : World :=
  {| st := apply_effects (st w) (effects h);
     timers := timers w ++ scheduled (effects h) |}.

Definition run_callback (cb : Callback) (u : Q) : Handler unit :=
  match cb with
  | FocusInput => emit InputFocus
  | AutoAdvance render => generateQuestion render None u
  end.

Inductive Action :=
| TypeAnswer (text : string)        (* onChange of the answer field *)
| Submit                            (* onSubmit={handleSubmit} *)
| Skip (u : Q)                      (* onClick={() => generateQuestion()} *)
| Reveal                            (* onClick={revealAnswer} *)
| ClickMarker (location : Entry)    (* click: () => generateQuestion(location) *)
| Reset (confirmed : bool) (u : Q)  (* onClick={resetProgress} *)
| CycleStatus (code : string)       (* onClick={(e) => cycleStatus(e, item.code)} *)
| Jump (location : Entry)           (* onClick={() => jumpToLocation(item)} *)
| ChooseMode (m : string)           (* onClick={() => setMode(...)} *)
| ToggleAutoNext                    (* onChange={() => setAutoNext(!autoNext)} *)
| ToggleShowAllDots                 (* onChange={() => setShowAllDots(!showAllDots)} *)
| ChooseSection (sec : string) (u : Q) (* onClick={() => setAppSection(...)} *)
| Search (text : string)            (* onChange of the search field *)
| Hover (code : option string)      (* onMouseEnter / onMouseLeave *)
| CatalogLoaded (uniqueCodes : list Entry) (u : Q)
                                    (* the [complete] callback of Papa.parse *)
| Fire (i : nat) (u : Q)            (* the pending callback number [i] runs *).

(** The handler of a user event, for the render [s] it belongs to.  A click
    on a marker passes the entry to [generateQuestion], which then takes no
    draw. *)
Definition handler_of (s : State) (a : Action) : Handler unit :=
  match a with
  | TypeAnswer text => emit (SetUserInput text)
  | Submit => handleSubmit s
  | Skip u => generateQuestion s None u
  | Reveal => revealAnswer s
  | ClickMarker location => generateQuestion s (Some location) 0%Q
  | Reset confirmed u => resetProgress s confirmed u
  | CycleStatus code => cycleStatus s code
  | Jump location => jumpToLocation s location
  | ChooseMode m => emit (SetMode m)
  | ToggleAutoNext => emit (SetAutoNext (negb (autoNext s)))
  | ToggleShowAllDots => emit (SetShowAllDots (negb (showAllDots s)))
  | ChooseSection sec _ => emit (SetAppSection sec)
  | Search text => emit (SetSearchTerm text)
  | Hover code => emit (SetHighlightCode code)
  | CatalogLoaded uniqueCodes _ =>
      emit (SetAreaCodes uniqueCodes);; emit (SetLoading false)
  | Fire _ _ => mret tt
  end.

Definition step (w : World) (a : Action) : World :=
  match a with
  | Fire i u =>
      match timers w !! i with
      | Some cb =>
          commit {| st := st w; timers := delete i (timers w) |}
                 (run_callback cb u)
      | None => w
      end
  | ChooseSection sec u =>
      (* a setter called with the value already held does not render *)
      if String.eqb sec (appSection (st w)) then w
      else
        let w' := commit w (handler_of (st w) a) in
        commit w' (startEffect (st w') u)
  | CatalogLoaded _ u =>
      let w' := commit w (handler_of (st w) a) in
      commit w' (startEffect (st w') u)
  | _ => commit w (handler_of (st w) a)
  end.

Definition run (w : World) (acts : list Action) : World :=
  fold_left step acts w.

(** The worlds passed through by a run, each with the action taken there. *)
Fixpoint trace (w : World) (acts : list Action) : list (World * Action) :=
  match acts with
  | [] => []
  | a :: acts' => (w, a) :: trace (step w a) acts'
  end.

(** [a] taken in [w] is a submission that [handleSubmit] judges correct,
    with [c] the code of the active question. *)
Definition correct_answer_for (c : string) (wa : World * Action) : Prop :=
  let (w, a) := wa in
  a = Submit /\
  exists q, currentQuestion (st w) = Some q /\ code q = c /\
            isCorrect (mode (st w)) q (userInput (st w)) = true.

(** The question shown after [generateQuestion()] was called by the render
    [s] and its updates were committed. *)
Definition selectNextQuestion (s : State) (u : Q) : option Entry :=
  currentQuestion (apply_effects s (effects (generateQuestion s None u))).

(** ** JSON.parse

    The JSON grammar of ECMA-404 over code units below 256.  A number keeps
    its literal; a string is decoded to its code units. *)

Module Json.

#[local] Unset Elimination Schemes.
Inductive value :=
| Null
| Bool (b : bool)
| Number (literal : string)
| Str (units : list N)
| Array (items : list value)
| Object (members : list (list N * value)).
#[local] Set Elimination Schemes.

Definition dquote : ascii := ascii_of_N 34.
Definition backslash : ascii := ascii_of_N 92.

Definition is_ws (c : ascii) : bool :=
  let n := N_of_ascii c in ((n =? 32) || (n =? 9) || (n =? 10) || (n =? 13))%N.

Definition is_digit (c : ascii) : bool :=
  let n := N_of_ascii c in ((48 <=? n) && (n <=? 57))%N.

Definition hex_digit (c : ascii) : option N :=
  let n := N_of_ascii c in
  if ((48 <=? n) && (n <=? 57))%N then Some (n - 48)%N
  else if ((65 <=? n) && (n <=? 70))%N then Some (n - 55)%N
  else if ((97 <=? n) && (n <=? 102))%N then Some (n - 87)%N
  else None.

Fixpoint skip_ws (cs : list ascii) : list ascii :=
  match cs with
  | c :: cs' => if is_ws c then skip_ws cs' else cs
  | [] => []
  end.

(** The longest prefix of digits, and what follows it. *)
Fixpoint digits (cs : list ascii) : list ascii * list ascii :=
  match cs with
  | c :: cs' =>
      if is_digit c then let (ds, rest) := digits cs' in (c :: ds, rest)
      else ([], cs)
  | [] => ([], [])
  end.

Definition is_char (a : string) (c : ascii) : bool :=
  match a with
  | String b EmptyString => Ascii.eqb b c
  | _ => false
  end.

(** [expect lit cs]: [cs] without its prefix [lit]. *)
Fixpoint expect (lit : string) (cs : list ascii) : option (list ascii) :=
  match lit, cs with
  | EmptyString, _ => Some cs
  | String a lit', c :: cs' => if Ascii.eqb a c then expect lit' cs' else None
  | String _ _, [] => None
  end.

(** int: [0], or a non-zero digit followed by digits. *)
Definition parse_int (cs : list ascii) : option (list ascii * list ascii) :=
  match cs with
  | c :: cs' =>
      if is_char "0" c then Some ([c], cs')
      else if is_digit c then let (ds, rest) := digits cs' in Some (c :: ds, rest)
      else None
  | [] => None
  end.

(** frac: nothing, or [.] and at least one digit. *)
Definition parse_frac (cs : list ascii) : option (list ascii * list ascii) :=
  match cs with
  | c :: cs' =>
      if is_char "." c then
        match digits cs' with
        | ([], _) => None
        | (ds, rest) => Some (c :: ds, rest)
        end
      else Some ([], cs)
  | [] => Some ([], [])
  end.

(** exp: nothing, or [e] / [E], an optional sign and at least one digit. *)
Definition parse_exp (cs : list ascii) : option (list ascii * list ascii) :=
  match cs with
  | c :: cs' =>
      if is_char "e" c || is_char "E" c then
        let (sign, cs'') :=
          match cs' with
          | d :: r => if is_char "+" d || is_char "-" d then ([d], r) else ([], cs')
          | [] => ([], cs')
          end in
        match digits cs'' with
        | ([], _) => None
        | (ds, rest) => Some (c :: sign ++ ds, rest)
        end
      else Some ([], cs)
  | [] => Some ([], [])
  end.

Definition parse_number (cs : list ascii) : option (string * list ascii) :=
  let (sign, cs1) :=
    match cs with
    | c :: r => if is_char "-" c then ([c], r) else ([], cs)
    | [] => ([], cs)
    end in
  '(i, cs2) ← parse_int cs1;
  '(f, cs3) ← parse_frac cs2;
  '(e, cs4) ← parse_exp cs3;
  Some (string_of_list_ascii (sign ++ i ++ f ++ e), cs4).

(** The characters of a string after its opening quote, up to and
    without the closing quote. *)
Fixpoint parse_string (cs : list ascii) : option (list N * list ascii) :=
  match cs with
  | [] => None
  | c :: cs' =>
      if Ascii.eqb c dquote then Some ([], cs')
      else if Ascii.eqb c backslash then
        match cs' with
        | e :: cs'' =>
            let continue (u : N) (rest : option (list N * list ascii)) :=
              '(us, r) ← rest; Some (u :: us, r) in
            if Ascii.eqb e dquote then continue 34%N (parse_string cs'')
            else if Ascii.eqb e backslash then continue 92%N (parse_string cs'')
            else if is_char "/" e then continue 47%N (parse_string cs'')
            else if is_char "b" e then continue 8%N (parse_string cs'')
            else if is_char "f" e then continue 12%N (parse_string cs'')
            else if is_char "n" e then continue 10%N (parse_string cs'')
            else if is_char "r" e then continue 13%N (parse_string cs'')
            else if is_char "t" e then continue 9%N (parse_string cs'')
            else if is_char "u" e then
              match cs'' with
              | h1 :: h2 :: h3 :: h4 :: cs3 =>
                  match hex_digit h1, hex_digit h2, hex_digit h3, hex_digit h4 with
                  | Some a, Some b, Some c, Some d =>
                      continue (((a * 16 + b) * 16 + c) * 16 + d)%N
                               (parse_string cs3)
                  | _, _, _, _ => None
                  end
              | _ => None
              end
            else None
        | [] => None
        end
      else if (N_of_ascii c <? 32)%N then None
      else '(us, r) ← parse_string cs'; Some (N_of_ascii c :: us, r)
  end.

(** The three mutually recursive productions, each over the parsers it
    calls. *)
Definition parser (A : Type) : Type := list ascii -> option (A * list ascii).

Definition value_body (elements : parser (list value))
  (members : parser (list (list N * value))) : parser value := fun cs =>
  match skip_ws cs with
  | [] => None
  | c :: rest =>
      if is_char "n" c then r ← expect "ull" rest; Some (Null, r)
      else if is_char "t" c then r ← expect "rue" rest; Some (Bool true, r)
      else if is_char "f" c then r ← expect "alse" rest; Some (Bool false, r)
      else if Ascii.eqb c dquote then
        '(us, r) ← parse_string rest; Some (Str us, r)
      else if is_char "[" c then
        match skip_ws rest with
        | d :: r =>
            if is_char "]" d then Some (Array [], r)
            else '(vs, r') ← elements rest; Some (Array vs, r')
        | [] => None
        end
      else if is_char "{" c then
        match skip_ws rest with
        | d :: r =>
            if is_char "}" d then Some (Object [], r)
            else '(ms, r') ← members rest; Some (Object ms, r')
        | [] => None
        end
      else '(lit, r) ← parse_number (c :: rest); Some (Number lit, r)
  end.

(** One value, then [,] and more elements, or the closing bracket. *)
Definition elements_body (value_ : parser value)
  (elements : parser (list value)) : parser (list value) := fun cs =>
  '(v, rest) ← value_ cs;
  match skip_ws rest with
  | d :: r =>
      if is_char "," d then '(vs, r') ← elements r; Some (v :: vs, r')
      else if is_char "]" d then Some ([v], r)
      else None
  | [] => None
  end.

(** One [key : value] member, then [,] and more members, or the closing
    brace. *)
Definition members_body (value_ : parser value)
  (members : parser (list (list N * value)))
  : parser (list (list N * value)) := fun cs =>
  match skip_ws cs with
  | q :: rest =>
      if Ascii.eqb q dquote then
        '(k, rest1) ← parse_string rest;
        match skip_ws rest1 with
        | colon :: rest2 =>
            if is_char ":" colon then
              '(v, rest3) ← value_ rest2;
              match skip_ws rest3 with
              | d :: r =>
                  if is_char "," d then
                    '(ms, r') ← members r; Some ((k, v) :: ms, r')
                  else if is_char "}" d then Some ([(k, v)], r)
                  else None
              | [] => None
              end
            else None
        | [] => None
        end
      else None
  | [] => None
  end.

Fixpoint parse_value (fuel : nat) : parser value :=
  match fuel with
  | O => fun _ => None
  | S fuel' => value_body (parse_elements fuel') (parse_members fuel')
  end
with parse_elements (fuel : nat) : parser (list value) :=
  match fuel with
  | O => fun _ => None
  | S fuel' => elements_body (parse_value fuel') (parse_elements fuel')
  end
with parse_members (fuel : nat) : parser (list (list N * value)) :=
  match fuel with
  | O => fun _ => None
  | S fuel' => members_body (parse_value fuel') (parse_members fuel')
  end.

(** [JSON.parse(text)]: one value between optional whitespace, or a
    [SyntaxError].  Twice the length of the text is enough depth for the
    parser ([parse_value_fuel] below). *)
Definition parse (text : string) : Completion value :=
  let cs := list_ascii_of_string text in
  match parse_value (2 * length cs) cs with
  | Some (v, rest) =>
      match skip_ws rest with
      | [] => Normal v
      | _ :: _ => Throw (SyntaxError "Unexpected non-whitespace character after JSON")
      end
  | None => Throw (SyntaxError "Unexpected token in JSON")
  end.

End Json.

(** ** The start-up reads of localStorage (the [useState] initializers) *)

#[global] Instance completion_ret : MRet Completion := fun A a => Normal a.

#[global] Instance completion_bind : MBind Completion := fun A B k m =>
  match m with
  | Normal a => k a
  | Throw e => Throw e
  end.

Module Persist.

(** [localStorage.getItem(key)]: the stored string, or [null]. *)
Definition getItem (ls : gmap string string) (key : string) : option string :=
  ls !! key.

(** [x || fallback] on the result of [getItem]: [null] and the empty
    string are falsy. *)
Definition or_else (x : option string) (fallback : string) : string :=
  match x with
  | Some v => if String.eqb v "" then fallback else v
  | None => fallback
  end.

(** [saved ? JSON.parse(saved) : fallback] *)
Definition parse_or (saved : option string) (fallback : Json.value)
  : Completion Json.value :=
  match saved with
  | Some v => if String.eqb v "" then Normal fallback else Json.parse v
  | None => Normal fallback
  end.

Fixpoint trim_start (cs : list ascii) : list ascii :=
  match cs with
  | c :: cs' => if JsString.is_space c then trim_start cs' else cs
  | [] => []
  end.

Definition decimal (ds : list ascii) : Z :=
  fold_left (fun acc d => 10 * acc + (Z.of_N (N_of_ascii d) - 48)) ds 0.

(** [parseInt(text, 10)]: leading whitespace, an optional sign, then the
    longest run of decimal digits; [NaN] when that run is empty, otherwise
    the double nearest to the integer the digits spell.  (The language
    lets an implementation read the digits after the twentieth as zeros;
    the engines read them all.) *)
Definition parseInt10 (text : string) : Number.t :=
  let cs := trim_start (list_ascii_of_string text) in
  let (negative, cs') :=
    match cs with
    | c :: r =>
        if Json.is_char "-" c then (true, r)
        else if Json.is_char "+" c then (false, r)
        else (false, cs)
    | [] => (false, cs)
    end in
  match Json.digits cs' with
  | ([], _) => Number.NaN
  | (ds, _) => Number.of_Z (if negative then - decimal ds else decimal ds)
  end.

(** Line 37: [localStorage.getItem("uk_codes_mode") || "nameToCode"] *)
Definition init_mode (ls : gmap string string) : string :=
  or_else (getItem ls "uk_codes_mode") "nameToCode".

(** Line 43: [JSON.parse(localStorage.getItem("uk_codes_auto_next") || "true")] *)
Definition init_autoNext (ls : gmap string string) : Completion Json.value :=
  Json.parse (or_else (getItem ls "uk_codes_auto_next") "true").

(** Line 47 *)
Definition init_showAllDots (ls : gmap string string) : Completion Json.value :=
  Json.parse (or_else (getItem ls "uk_codes_show_dots") "true").

(** Line 59: [saved ? JSON.parse(saved) : {}] *)
Definition init_dictStatus (ls : gmap string string) : Completion Json.value :=
  parse_or (getItem ls "uk_codes_dict_status") (Json.Object []).

(** Line 67: [saved ? JSON.parse(saved) : []] *)
Definition init_correctList (ls : gmap string string) : Completion Json.value :=
  parse_or (getItem ls "uk_codes_mastered") (Json.Array []).

(** Line 73 *)
Definition init_reviewList (ls : gmap string string) : Completion Json.value :=
  parse_or (getItem ls "uk_codes_review") (Json.Array []).

(** Line 79: [saved ? parseInt(saved, 10) : 0] *)
Definition init_mistakeCount (ls : gmap string string) : Number.t :=
  match getItem ls "uk_codes_mistakes" with
  | Some v => if String.eqb v "" then 0 else parseInt10 v
  | None => 0
  end.

(** The persisted cells as the first render of [App] gets them. *)
Record Cells := mkCells {
  cell_mode : string;
  cell_autoNext : Json.value;
  cell_showAllDots : Json.value;
  cell_dictStatus : Json.value;
  cell_correctList : Json.value;
  cell_reviewList : Json.value;
  cell_mistakeCount : Number.t
}.

(** The first render runs the initializers in source order; an exception
    of one of them leaves [App] by that exception. *)
Definition mount (ls : gmap string string) : Completion Cells :=
  let m := init_mode ls in
  a ← init_autoNext ls;
  d ← init_showAllDots ls;
  ds ← init_dictStatus ls;
  c ← init_correctList ls;
  r ← init_reviewList ls;
  mret (mkCells m a d ds c r (init_mistakeCount ls)).

(** The documented defaults. *)
Definition defaults : Cells :=
  mkCells "nameToCode" (Json.Bool true) (Json.Bool true) (Json.Object [])
          (Json.Array []) (Json.Array []) 0.

Definition persisted_keys : list string :=
  ["uk_codes_mastered"; "uk_codes_review"; "uk_codes_mistakes";
   "uk_codes_dict_status"; "uk_codes_mode"; "uk_codes_auto_next";
   "uk_codes_show_dots"].

(** A stored value that is not JSON. *)
Definition not_json (v : string) : Prop :=
  exists e, Json.parse v = Throw e.

(** [getItem] gives [null] or the empty string for the key. *)
Definition absent (ls : gmap string string) (key : string) : Prop :=
  ls !! key = None \/ ls !! key = Some "".

End Persist.

(** ** Vocabulary of the statements *)

(** The normal form of an answer: whitespace stripped, lower-cased. *)
Definition normalize (s : string) : string :=
  toLowerCase (strip_whitespace s).

(** A code with its leading zero supplied when it was left out. *)
Definition with_leading_zero (s : string) : string :=
  match s with
  | String c _ => if Ascii.eqb c "0" then s else String "0" s
  | EmptyString => "0"
  end.

(** The reset that was confirmed in the dialog. *)
Definition is_reset (a : Action) : bool :=
  match a with
  | Reset true _ => true
  | _ => false
  end.

(** The run of a pending timer callback. *)
Definition is_fire (a : Action) : bool :=
  match a with
  | Fire _ _ => true
  | _ => false
  end.

(** An action other than the run of the pending callback number [i] or of
    a callback registered before it: a user event, or the run of a callback
    registered later. *)
Definition spares (i : nat) (a : Action) : bool :=
  match a with
  | Fire j _ => (i <? j)%nat
  | _ => true
  end.

(** The dictionary statuses 0 (New), 1 (Learning) and 2 (Done). *)
Definition is_status (v : Z) : Prop := 0 <= v <= 2.

(** Small catalogs and worlds on which the statements are evaluated. *)
Module Sample.

Definition testtown : Entry := mkEntry "01234" "Testtown" (51 # 1) (0 # 1).
Definition isle_of_wight : Entry :=
  mkEntry "01983" "Isle of Wight" (507 # 10) (-13 # 10).
Definition york : Entry := mkEntry "01904" "York" (5396 # 100) (-108 # 100).

Definition fresh (catalog : list Entry) (q : option Entry) (typed : string)
  : State :=
  {| areaCodes := catalog; loading := false; appSection := "GAME";
     mode := "nameToCode"; currentQuestion := q; userInput := typed;
     feedback := ""; autoNext := true; shouldZoom := true;
     showAllDots := true; searchTerm := ""; highlightCode := None;
     dictStatus := ∅; correctList := []; reviewList := [];
     mistakeCount := 0 |}.

(** Every code of the one-entry catalog is mastered; the dictionary has a
    status for it. *)
Definition all_mastered : World :=
  {| st := with_dictStatus {[ "01234" := 2 ]}
             (with_mistakeCount 3
                (with_reviewList ["01234"]
                   (with_correctList ["01234"]
                      (fresh [testtown] None ""))));
     timers := [] |}.

(** The learner is asked the code of Testtown and has typed it. *)
Definition answering : World :=
  {| st := fresh [testtown; isle_of_wight; york] (Some testtown) "01234";
     timers := [] |}.

(** The learner is asked the code of Testtown and has typed a wrong one. *)
Definition mistaken : World :=
  {| st := fresh [testtown; isle_of_wight; york] (Some testtown) "01904";
     timers := [] |}.

(** No question is active. *)
Definition idle : World :=
  {| st := fresh [testtown] None ""; timers := [] |}.

(** Testtown is mastered; the learner has clicked its marker, is asked its
    code again and has typed it. *)
Definition reanswering : World :=
  {| st := with_correctList ["01234"]
             (fresh [testtown; isle_of_wight; york] (Some testtown) "01234");
     timers := [] |}.

End Sample.

(** ** Catalog load (the [complete] callback of Papa.parse)

    [cleanData] is the list that the row filter and the row map produce;
    the steps below are the ones that follow it. *)

Module Catalog.

(** Lines 118-119: [if (!cleanCode.startsWith("0")) cleanCode = "0" + cleanCode] *)
Definition cleanCode (raw : string) : string :=
  if negb (startsWith raw "0") then "0" +:+ raw else raw.

(** One turn of the [forEach] of lines 130-135, on the array [uniqueCodes]
    and the set [seen]. *)
Definition visit (acc : list Entry * gset string) (item : Entry)
  : list Entry * gset string :=
  let (uniqueCodes, seen) := acc in
  if bool_decide (code item ∈ seen) then acc
  else (uniqueCodes ++ [item], {[code item]} ∪ seen).

Definition uniqueCodes (cleanData : list Entry) : list Entry :=
  fst (fold_left visit cleanData ([], ∅)).

(** [e] is the first entry of its code in [visited]. *)
Definition first_of_code (visited : list Entry) (e : Entry) : Prop :=
  exists before after : list Entry,
    visited = before ++ e :: after /\ code e ∉ map code before.

(** Line 137: [uniqueCodes.sort((a, b) => a.place.localeCompare(b.place))].
    [sort] is stable; for a comparison that orders the places its result is
    the stable sorted arrangement, which inserting the entries one by one,
    each behind the entries that do not come after it, computes. *)
Section Sort.

Variable localeCompare : string -> string -> Z.

Fixpoint insert (x : Entry) (sorted : list Entry) : list Entry :=
  match sorted with
  | [] => [x]
  | y :: sorted' =>
      if localeCompare (place y) (place x) <=? 0 then y :: insert x sorted'
      else x :: y :: sorted'
  end.

Definition sort (entries : list Entry) : list Entry :=
  fold_left (fun sorted x => insert x sorted) entries [].

(** The comparison does not put [b] before [a]. *)
Definition ordered (a b : Entry) : Prop :=
  localeCompare (place a) (place b) <= 0.

(** The list handed to [setAreaCodes]. *)
Definition load (cleanData : list Entry) : list Entry :=
  sort (uniqueCodes cleanData).

End Sort.

End Catalog.

(** ** What the map draws (the markers of lines 528-622) *)

Module Render.

(** The [let] variables of the marker callback. *)
Record Vars := mkVars {
  color : string;
  fillColor : string;
  opacity : Q;
  radius : Z;
  weight : Z
}.

Definition paint (c : string) (v : Vars) : Vars :=
  mkVars c c (opacity v) (radius v) (weight v).

Definition fade (o : Q) (v : Vars) : Vars :=
  mkVars (color v) (fillColor v) o (radius v) (weight v).

Definition size (r w : Z) (v : Vars) : Vars :=
  mkVars (color v) (fillColor v) (opacity v) r w.

Definition isGameMastered (s : State) (location : Entry) : bool :=
  Array_includes (correctList s) (code location).

Definition isReview (s : State) (location : Entry) : bool :=
  Array_includes (reviewList s) (code location).

(** [appSection === "GAME" && currentQuestion
     && currentQuestion.code === location.code] *)
Definition isGameCurrent (s : State) (location : Entry) : bool :=
  String.eqb (appSection s) "GAME"
  && match currentQuestion s with
     | Some q => String.eqb (code q) (code location)
     | None => false
     end.

Definition isHighlighted (s : State) (location : Entry) : bool :=
  match highlightCode s with
  | Some h => String.eqb h (code location)
  | None => false
  end.

(** The marker of [location]: its variables when a [CircleMarker] is
    returned, [None] when the callback returns [null]. *)
Definition marker (s : State) (location : Entry) : option Vars :=
  let dictState := status_of (dictStatus s) (code location) in
  let v := mkVars "#888" "#888" (1 # 2) 5 1 in
  if String.eqb (appSection s) "GAME" then
    let v :=
      if isGameMastered s location then paint "#2ecc71" v
      else if isReview s location then paint "#f39c12" v
      else v in
    let v :=
      if isGameCurrent s location
      then size 8 3 (fade 1 (paint "#e74c3c" v)) else v in
    if negb (showAllDots s) && isGameMastered s location then None
    else Some v
  else
    let v := if dictState =? 1 then fade (8 # 10) (paint "#3498db" v) else v in
    let v := if dictState =? 2 then fade (8 # 10) (paint "#2ecc71" v) else v in
    let v :=
      if isHighlighted s location
      then size 9 4 (fade 1 (paint "#f1c40f" v)) else v in
    Some v.

(** The markers on the map, in catalog order. *)
Definition markers (s : State) : list (Entry * Vars) :=
  omap (fun location => pair location <$> marker s location) (areaCodes s).

(** Line 313: the progress bar gets the class "complete". *)
Definition bar_complete (s : State) : bool :=
  (length (correctList s) =? length (areaCodes s))%nat.

(** Lines 473-484: the label of the status button of a dictionary row. *)
Definition statusText (s : State) (item : Entry) : string :=
  let status := status_of (dictStatus s) (code item) in
  let statusText := "New" in
  let statusText := if status =? 1 then "Learning" else statusText in
  let statusText := if status =? 2 then "Done" else statusText in
  statusText.

End Render.

(** ** The save effects (lines 85-106) *)

Module Save.

Definition hex (n : N) : ascii :=
  ascii_of_N (if (n <? 10)%N then 48 + n else 87 + n).

(** One code unit inside a string of [JSON.stringify]. *)
Definition quote_unit (c : ascii) : list ascii :=
  let n := N_of_ascii c in
  let esc (e : string) := Json.backslash :: list_ascii_of_string e in
  if Ascii.eqb c Json.dquote then [Json.backslash; Json.dquote]
  else if Ascii.eqb c Json.backslash then [Json.backslash; Json.backslash]
  else if (n =? 8)%N then esc "b"
  else if (n =? 12)%N then esc "f"
  else if (n =? 10)%N then esc "n"
  else if (n =? 13)%N then esc "r"
  else if (n =? 9)%N then esc "t"
  else if (n <? 32)%N then
    esc "u00" ++ [hex (n / 16)%N; hex (n mod 16)%N]
  else [c].

(** [JSON.stringify(s)] for a string. *)
Definition quote (s : string) : list ascii :=
  Json.dquote :: flat_map quote_unit (list_ascii_of_string s) ++ [Json.dquote].

Fixpoint join (items : list (list ascii)) : list ascii :=
  match items with
  | [] => []
  | [x] => x
  | x :: items' => x ++ ","%char :: join items'
  end.

(** [JSON.stringify(arr)] for an array of strings. *)
Definition stringify_strings (arr : list string) : string :=
  string_of_list_ascii ("["%char :: join (map quote arr) ++ ["]"%char]).

(** [JSON.stringify(b)] for a boolean. *)
Definition stringify_bool (b : bool) : string :=
  if b then "true" else "false".

(** The [setItem] calls of the save effects for the render [s], in source
    order.  The effect of [dictStatus] is left out: the text of an object
    lists its keys in insertion order, which the map does not record. *)
Definition writes (s : State) : list (string * string) :=
  [("uk_codes_mastered", stringify_strings (correctList s));
   ("uk_codes_review", stringify_strings (reviewList s));
   ("uk_codes_mistakes", Number.toString (mistakeCount s));
   ("uk_codes_mode", mode s);
   ("uk_codes_auto_next", stringify_bool (autoNext s));
   ("uk_codes_show_dots", stringify_bool (showAllDots s))].

Definition setItem (ls : gmap string string) (kv : string * string)
  : gmap string string :=
  <[kv.1 := kv.2]> ls.

(** [localStorage] after the save effects of [s] have run. *)
Definition save (s : State) (ls : gmap string string) : gmap string string :=
  fold_left setItem (writes s) ls.

(** The JSON value of a string and of an array of strings. *)
Definition json_string (s : string) : Json.value :=
  Json.Str (map N_of_ascii (list_ascii_of_string s)).

Definition json_strings (arr : list string) : Json.value :=
  Json.Array (map json_string arr).

End Save.

(** ** More vocabulary *)

(** A submission judged incorrect, or a reveal, of the question with code
    [c]. *)
Definition failure_for (c : string) (wa : World * Action) : Prop :=
  let (w, a) := wa in
  exists q, currentQuestion (st w) = Some q /\ code q = c /\
            (a = Reveal
             \/ (a = Submit
                 /\ isCorrect (mode (st w)) q (userInput (st w)) = false)).

(** The tasks that raise the mistake counter: a reveal, and a submission
    of the active question that is judged incorrect. *)
Definition is_mistake (wa : World * Action) : bool :=
  let (w, a) := wa in
  match a with
  | Reveal => true
  | Submit =>
      match currentQuestion (st w) with
      | Some q => negb (isCorrect (mode (st w)) q (userInput (st w)))
      | None => false
      end
  | _ => false
  end.

(** * Properties *)

(** ** Numbers *)

(** On the integers from [- 2 ^ 53] to [2 ^ 53 - 1], [+ 1] is exact. *)
Lemma add_one_safe (n : Z) :
  Number.safe n -> Number.add (Number.Fin n) 1 = Number.Fin (n + 1).
Proof.
  unfold Number.safe, Number.add, Number.of_Z. intros [Hlo Hhi].
  destruct (Z.ltb_spec (Z.abs (n + 1)) (2 ^ 53)) as [|Hbig]; [done|].
  assert (n + 1 = 2 ^ 53) as -> by lia.
  by vm_compute.
Qed.

(** [NaN + 1] is [NaN], and [2 ^ 53 + 1] rounds back to [2 ^ 53]. *)
Lemma add_one_absorbed :
  Number.add Number.NaN 1 = Number.NaN
  /\ Number.add (Number.Fin (2 ^ 53)) 1 = Number.Fin (2 ^ 53)
  /\ Number.add (Number.Infinity false) 1 = Number.Infinity false.
Proof. by vm_compute. Qed.

Lemma round_even_range (a e : Z) :
  0 <= e ->
  a / 2 ^ e <= Number.round_even a e <= a / 2 ^ e + 1.
Proof.
  intros He. unfold Number.round_even. cbv zeta.
  destruct (a mod 2 ^ e <? 2 ^ (e - 1)); [lia|].
  destruct (2 ^ (e - 1) <? a mod 2 ^ e); [lia|].
  destruct (Z.even (a / 2 ^ e)); lia.
Qed.

Lemma round_even_exact (m e : Z) :
  0 < e -> Number.round_even (m * 2 ^ e) e = m.
Proof.
  intros He. unfold Number.round_even. cbv zeta.
  assert (0 < 2 ^ e) as Hpos by (apply Z.pow_pos_nonneg; lia).
  assert (0 < 2 ^ (e - 1)) as Hhalf by (apply Z.pow_pos_nonneg; lia).
  rewrite Z.div_mul, Z.mod_mul by lia.
  by destruct (Z.ltb_spec 0 (2 ^ (e - 1))); [|lia].
Qed.

Lemma of_Z_pos_double (m e : Z) :
  0 < e -> 2 ^ 52 <= m <= 2 ^ 53 -> m * 2 ^ e < 2 ^ 1024 ->
  Number.of_Z (m * 2 ^ e) = Number.Fin (m * 2 ^ e)
  /\ Number.of_Z (- (m * 2 ^ e)) = Number.Fin (- (m * 2 ^ e)).
Proof.
  intros He Hm Hfin.
  assert (0 < 2 ^ e) as Hpos by (apply Z.pow_pos_nonneg; lia).
  assert (2 * 2 ^ 52 <= m * 2 ^ e) as Hbig.
  { assert (2 <= 2 ^ e).
    { change 2 with (2 ^ 1) at 1. apply Z.pow_le_mono_r; lia. }
    nia. }
  assert (exists m' e', 0 < e' /\ m * 2 ^ e = m' * 2 ^ e'
                        /\ Z.log2 (m * 2 ^ e) - 52 = e')
    as (m' & e' & He' & Heq & Hlog).
  { destruct (Z.eq_dec m (2 ^ 53)) as [->|Hne].
    - exists (2 ^ 52), (e + 1). split; [lia|]. split.
      + rewrite Z.pow_add_r by lia. lia.
      + rewrite <- Z.pow_add_r by lia. rewrite Z.log2_pow2 by lia. lia.
    - exists m, e. split; [lia|]. split; [done|].
      rewrite Z.log2_mul_pow2 by lia.
      assert (Z.log2 m = 52); [|lia].
      apply Z.log2_unique; lia. }
  unfold Number.of_Z. cbv zeta.
  rewrite Z.abs_opp, Z.abs_eq by lia.
  destruct (Z.ltb_spec (m * 2 ^ e) (2 ^ 53)) as [|_]; [lia|].
  rewrite Hlog, Heq, round_even_exact by done. rewrite <- Heq.
  destruct (Z.leb_spec (2 ^ 1024) (m * 2 ^ e)) as [|_]; [lia|].
  split; f_equal.
  - rewrite Z.sgn_pos by lia. lia.
  - rewrite Z.sgn_neg by lia. lia.
Qed.

(** Rounding gives a double, and so do [+] and [parseInt]. *)
Lemma of_Z_double (z : Z) : Number.is_double (Number.of_Z z).
Proof.
  unfold Number.of_Z at 1. cbv zeta.
  destruct (Z.ltb_spec (Z.abs z) (2 ^ 53)) as [Hsmall|Hbig].
  { cbn. unfold Number.of_Z.
    by destruct (Z.ltb_spec (Z.abs z) (2 ^ 53)); [|lia]. }
  set (e := Z.log2 (Z.abs z) - 52).
  set (m := Number.round_even (Z.abs z) e).
  destruct (Z.leb_spec (2 ^ 1024) (m * 2 ^ e)) as [|Hfin]; [done|].
  assert (53 <= Z.log2 (Z.abs z)) as Hlog.
  { change 53 with (Z.log2 (2 ^ 53)). by apply Z.log2_le_mono. }
  assert (0 < e) as He by (unfold e; lia).
  assert (0 < 2 ^ e) as Hpos by (apply Z.pow_pos_nonneg; lia).
  assert (2 ^ 52 <= Z.abs z / 2 ^ e < 2 ^ 53) as Hq.
  { destruct (Z.log2_spec (Z.abs z)) as [Hlo Hhi]; [lia|].
    replace (Z.log2 (Z.abs z)) with (52 + e) in Hlo by (unfold e; lia).
    replace (Z.succ (Z.log2 (Z.abs z))) with (53 + e) in Hhi
      by (unfold e; lia).
    rewrite Z.pow_add_r in Hlo, Hhi by lia. split.
    - apply Z.div_le_lower_bound; lia.
    - apply Z.div_lt_upper_bound; lia. }
  pose proof (round_even_range (Z.abs z) e ltac:(lia)) as Hm. fold m in Hm.
  destruct (of_Z_pos_double m e He ltac:(lia) Hfin) as [Hp Hn].
  cbn. destruct (Z.sgn_spec z) as [[? ->]|[[? ->]|[? ->]]].
  - by rewrite Z.mul_1_l.
  - subst z. cbn in Hbig. lia.
  - replace (-1 * (m * 2 ^ e)) with (- (m * 2 ^ e)) by lia. done.
Qed.

Lemma add_double (x y : Number.t) : Number.is_double (Number.add x y).
Proof.
  destruct x as [|a|a], y as [|b|b]; try done; [|apply of_Z_double].
  cbn. by destruct (Bool.eqb a b).
Qed.

(** The rounding and the forms of [toString] on some values. *)
Lemma number_examples :
  Number.of_Z (2 ^ 53 + 1) = Number.Fin (2 ^ 53)
  /\ Number.of_Z (2 ^ 53 + 3) = Number.Fin (2 ^ 53 + 4)
  /\ Number.of_Z (2 ^ 1024) = Number.Infinity false
  /\ Number.toString (Number.Fin (2 ^ 53)) = "9007199254740992"
  /\ Number.toString (Number.Fin (- 2 ^ 64)) = "-18446744073709552000"
  /\ Number.toString (Number.Fin 123456789012345683968)
     = "123456789012345680000"
  /\ Number.toString (Number.Fin (10 ^ 21)) = "1e+21"
  /\ Number.toString (Number.Fin (2 ^ 70)) = "1.1805916207174113e+21".
Proof. by vm_compute. Qed.

(** ** Strings and arrays *)

Section StringFacts.

Import JsString.

Lemma replace_space_runs_empty (in_run : bool) (s : string) :
  replace_space_runs "" in_run s = strip_whitespace s.
Proof.
  revert in_run; induction s as [|c s IH]; intros in_run; simpl; [done|].
  destruct (is_space c).
  - destruct in_run; simpl; apply IH.
  - f_equal. apply IH.
Qed.

Lemma remove_spaces_strip (s : string) :
  remove_spaces s = strip_whitespace s.
Proof. apply replace_space_runs_empty. Qed.

Lemma startsWith_app (s p : string) :
  startsWith s p = true <-> exists post, s = p +:+ post.
Proof.
  revert s; induction p as [|a p IH]; intros s; simpl.
  - split; [intros _; by exists s | done].
  - destruct s as [|b s].
    + split; [done | intros [post H]; discriminate H].
    + rewrite andb_true_iff, IH. split.
      * intros [Hab [post ->]]. apply Ascii.eqb_eq in Hab as ->. by exists post.
      * intros [post H]. injection H as -> ->. split; [apply Ascii.eqb_refl | by exists post].
Qed.

Lemma includes_substring (s t : string) :
  includes s t = true <-> is_substring t s.
Proof.
  unfold is_substring. induction s as [|c s IH]; simpl.
  - rewrite orb_false_r, startsWith_app. split.
    + intros [post H]. by exists "", post.
    + intros (pre & post & H). destruct pre as [|? ?]; [by exists post | discriminate H].
  - rewrite orb_true_iff, startsWith_app, IH. split.
    + intros [[post H] | (pre & post & H)].
      * by exists "", post.
      * exists (String c pre), post. simpl. by rewrite H.
    + intros (pre & post & H). destruct pre as [|d pre]; simpl in H.
      * left. by exists post.
      * right. injection H as -> ->. by exists pre, post.
Qed.

Lemma startsWith_zero (s : string) :
  (if negb (startsWith s "0") then "0" +:+ s else s) = with_leading_zero s.
Proof.
  destruct s as [|c s]; [done|].
  cbn [startsWith with_leading_zero].
  rewrite andb_true_r, (Ascii.eqb_sym "0" c). by destruct (Ascii.eqb c "0").
Qed.

End StringFacts.

Lemma Array_includes_elem_of (arr : list string) (x : string) :
  Array_includes arr x = true <-> x ∈ arr.
Proof.
  induction arr as [|y arr IH]; simpl.
  - split; [done | intros H; inversion H].
  - rewrite orb_true_iff, String.eqb_eq, IH, elem_of_cons.
    split; (intros [H|H]; [left; congruence | by right]).
Qed.

Lemma Array_includes_not_elem_of (arr : list string) (x : string) :
  Array_includes arr x = false <-> x ∉ arr.
Proof.
  rewrite <- Array_includes_elem_of. by destruct (Array_includes arr x).
Qed.

(** ** Answer checking *)

(** What [handleSubmit] decides in the code-to-place direction (any mode
    other than "nameToCode"): the lower-cased place, with its spaces kept,
    contains the normalized input. *)
Lemma isCorrect_place_branch (m : string) (q : Entry) (input : string) :
  m <> "nameToCode" ->
  isCorrect m q input = true <->
  JsString.is_substring (normalize input) (JsString.toLowerCase (place q)).
Proof.
  intros Hm. unfold isCorrect, normalize.
  destruct (String.eqb_spec m "nameToCode") as [|_]; [done|].
  by rewrite includes_substring, remove_spaces_strip.
Qed.

(** C3: in the place-to-code direction ("nameToCode") the input and the
    expected code are whitespace-stripped and lower-cased, a missing leading
    "0" is put in front of the input, and the answer is correct exactly when
    the two strings are equal; "1234" is correct for the code "01234". *)
Theorem isCorrect_nameToCode (q : Entry) (input : string) :
  (isCorrect "nameToCode" q input = true <->
   with_leading_zero (normalize input) = normalize (code q))
  /\ isCorrect "nameToCode" Sample.testtown "1234" = true.
Proof.
  split; [|reflexivity].
  unfold normalize.
  change (isCorrect "nameToCode" q input) with
    (String.eqb
       (let i := JsString.toLowerCase (JsString.remove_spaces input) in
        if negb (JsString.startsWith i "0") then "0" +:+ i else i)
       (JsString.toLowerCase (JsString.remove_spaces (code q)))).
  cbv zeta. by rewrite startsWith_zero, !remove_spaces_strip, String.eqb_eq.
Qed.

(** C2: for the place "Isle of Wight" the input "Isle of Wight" is judged
    incorrect in the code-to-place direction, although the normalized place
    contains the normalized input; the input "test" is correct for
    "Testtown". *)
Theorem isCorrect_codeToName_keeps_place_spaces :
  isCorrect "codeToName" Sample.isle_of_wight "Isle of Wight" = false
  /\ JsString.is_substring (normalize "Isle of Wight")
                           (normalize (place Sample.isle_of_wight))
  /\ isCorrect "codeToName" Sample.testtown "test" = true.
Proof.
  split; [reflexivity|]. split; [|reflexivity].
  by exists "", "".
Qed.

(** ** Question selection *)

Lemma pending_elem_of (s : State) (e : Entry) :
  e ∈ pending s <-> e ∈ areaCodes s /\ code e ∉ correctList s.
Proof.
  unfold pending.
  rewrite (list_elem_of_In (List.filter _ _) e), filter_In, <- list_elem_of_In.
  by rewrite negb_true_iff, Array_includes_not_elem_of.
Qed.

Lemma pending_nil (s : State) :
  pending s = [] <-> forall e, e ∈ areaCodes s -> code e ∈ correctList s.
Proof.
  split.
  - intros Hnil e He.
    destruct (Array_includes (correctList s) (code e)) eqn:Hin.
    + by apply Array_includes_elem_of.
    + assert (e ∈ pending s) as Hp.
      { apply pending_elem_of. split; [done|]. by apply Array_includes_not_elem_of. }
      rewrite Hnil in Hp. inversion Hp.
  - intros Hall. destruct (pending s) as [|e l] eqn:Hp; [done|].
    assert (e ∈ pending s) as He by (rewrite Hp; left).
    apply pending_elem_of in He as [He Hc]. destruct Hc. by apply Hall.
Qed.

Lemma random_index_range (u : Q) (n : nat) :
  (0 <= u)%Q -> (u < 1)%Q -> (0 < n)%nat ->
  0 <= random_index u n < Z.of_nat n.
Proof.
  intros H0 H1 Hn. unfold random_index.
  set (k := inject_Z (Z.of_nat n)).
  assert (0 < k)%Q as Hk.
  { unfold k. rewrite <- (Zlt_Qlt 0). lia. }
  split.
  - change 0 with (Qfloor 0). apply Qfloor_resp_le.
    apply Qmult_le_0_compat; [done | by apply Qlt_le_weak].
  - rewrite Zlt_Qlt. apply Qle_lt_trans with (u * k)%Q; [apply Qfloor_le|].
    fold k. rewrite <- (Qmult_1_l k) at 2. by apply Qmult_lt_compat_r.
Qed.

Lemma array_get_in_range {A} (arr : list A) (i : Z) :
  0 <= i < Z.of_nat (length arr) ->
  exists x, array_get arr i = Some x /\ x ∈ arr.
Proof.
  intros [Hlo Hhi]. unfold array_get.
  destruct (Z.ltb_spec i 0) as [|_]; [lia|].
  destruct (lookup_lt_is_Some_2 arr (Z.to_nat i)) as [x Hx]; [lia|].
  exists x. split; [done|]. by eapply list_elem_of_lookup_2.
Qed.

Lemma array_get_elem_of {A} (arr : list A) (i : Z) (x : A) :
  array_get arr i = Some x -> x ∈ arr.
Proof.
  unfold array_get. destruct (i <? 0); [done|]. apply list_elem_of_lookup_2.
Qed.

(** The question committed by [generateQuestion()] does not depend on the
    state the updates are applied to, only on the render that ran it. *)
Lemma generateQuestion_question (s0 s : State) (u : Q) :
  currentQuestion (apply_effects s0 (effects (generateQuestion s None u))) =
  if (length (pending s) =? 0)%nat then None
  else array_get (pending s) (random_index u (length (pending s))).
Proof.
  unfold generateQuestion. by destruct (length (pending s) =? 0)%nat.
Qed.

Lemma generateQuestion_completes (s : State) (o : option Entry) (u : Q) :
  completion (generateQuestion s o u) = Normal tt.
Proof.
  unfold generateQuestion. destruct o; [done|].
  by destruct (length (pending s) =? 0)%nat.
Qed.

(** A call from the latest render: [generateQuestion()] without an entry,
    run by the render [s] on the state [s] with a draw [u] of
    [Math.random()], does not throw; the question it leaves is none exactly
    when the pending pool of [s] is empty, that is when every catalog code
    is in the mastered list of [s]; otherwise it is an entry of that pool,
    a catalog entry whose code is not mastered. *)
Lemma selectNextQuestion_pending (s : State) (u : Q) :
  (0 <= u)%Q -> (u < 1)%Q ->
  completion (generateQuestion s None u) = Normal tt
  /\ (selectNextQuestion s u = None <-> pending s = [])
  /\ (pending s = [] <->
      forall e, e ∈ areaCodes s -> code e ∈ correctList s)
  /\ (forall e, selectNextQuestion s u = Some e ->
                e ∈ areaCodes s /\ code e ∉ correctList s).
Proof.
  intros H0 H1. split; [apply generateQuestion_completes|].
  split; [|split; [apply pending_nil|]].
  - unfold selectNextQuestion. rewrite generateQuestion_question.
    destruct (Nat.eqb_spec (length (pending s)) 0) as [Hlen|Hlen].
    + split; [intros _; by apply length_zero_iff_nil | done].
    + destruct (array_get_in_range (pending s)
                  (random_index u (length (pending s)))) as (x & -> & _).
      { apply random_index_range; [done | done | lia]. }
      split; [done|]. intros Hnil. by rewrite Hnil in Hlen.
  - intros e. unfold selectNextQuestion. rewrite generateQuestion_question.
    destruct (length (pending s) =? 0)%nat; [done|].
    intros He%array_get_elem_of. by apply pending_elem_of.
Qed.

Lemma selectNextQuestion_pending_witness :
  (0 <= 1 # 2)%Q /\ (1 # 2 < 1)%Q
  /\ (selectNextQuestion (st Sample.answering) (1 # 2) = None <->
      pending (st Sample.answering) = []).
Proof.
  assert (0 <= 1 # 2)%Q as H0 by (unfold Qle; simpl; lia).
  assert (1 # 2 < 1)%Q as H1 by (unfold Qlt; simpl; lia).
  split; [exact H0|]. split; [exact H1|].
  exact (proj1 (proj2
    (selectNextQuestion_pending (st Sample.answering) (1 # 2) H0 H1))).
Defined.

(** The Skip button and the start effect run the [generateQuestion] of the
    latest render, so they select from the pool of the current state. *)
Lemma skip_selects (w : World) (u : Q) :
  currentQuestion (st (step w (Skip u))) = selectNextQuestion (st w) u.
Proof. reflexivity. Qed.

(** C1: [generateQuestion()] filters the catalog by the mastered list of
    the render whose closure is called, whatever the mastered list is when
    the call is made.  The callback of auto-advance is the closure of the
    render before the answer: after Testtown is answered correctly it
    selects Testtown again, whose code is mastered and which is not in the
    pending pool.  [resetProgress] calls the closure of the render before
    the reset: with every code mastered it leaves no question, and the
    message that every code is mastered, although the mastered list is
    empty by then and the pending pool holds the entry. *)
Theorem generateQuestion_reads_mastered_list_of_its_render :
  (forall (w : World) (render : State) (u : Q),
     currentQuestion (st (commit w (generateQuestion render None u)))
     = selectNextQuestion render u)
  /\ (let w1 := step Sample.answering Submit in
      let w2 := step w1 (Fire 0 0) in
      correctList (st w1) = ["01234"]
      /\ pending (st w1) = [Sample.isle_of_wight; Sample.york]
      /\ timers w1 = [AutoAdvance (st Sample.answering)]
      /\ currentQuestion (st w2) = Some Sample.testtown
      /\ correctList (st w2) = ["01234"]
      /\ pending (st w2) = [Sample.isle_of_wight; Sample.york])
  /\ (let w' := step Sample.all_mastered (Reset true 0) in
      correctList (st w') = []
      /\ pending (st w') = [Sample.testtown]
      /\ currentQuestion (st w') = None
      /\ feedback (st w') = "🎉 You have mastered EVERY UK code!").
Proof.
  split; [|by repeat split].
  intros w render u. unfold commit, selectNextQuestion. cbn [st].
  by rewrite !generateQuestion_question.
Qed.

(** ** Submitting, revealing, resetting *)

Lemma commit_nothing (w : World) (es : list Effect) (c : Completion unit) :
  scheduled es = [] -> apply_effects (st w) es = st w -> commit w (es, c) = w.
Proof.
  intros Hs He. unfold commit, effects. cbn [fst]. rewrite Hs, He, app_nil_r.
  by destruct w.
Qed.

(** C5 as stated fails: a mistake counter that is NaN, as [parseInt] reads
    it from the stored text "{oops", is still NaN after an incorrect
    submission, and a counter of [2 ^ 53] is still [2 ^ 53]. *)
Lemma incorrect_submission_keeps_NaN :
  let stored := Persist.init_mistakeCount {[ "uk_codes_mistakes" := "{oops" ]} in
  let start (count : Number.t) : World :=
    {| st := with_mistakeCount count (st Sample.mistaken); timers := [] |} in
  stored = Number.NaN
  /\ currentQuestion (st (start stored)) = Some Sample.testtown
  /\ isCorrect (mode (st (start stored))) Sample.testtown
               (userInput (st (start stored))) = false
  /\ mistakeCount (st (step (start stored) Submit)) = Number.NaN
  /\ mistakeCount (st (step (start (Number.Fin (2 ^ 53))) Submit))
     = Number.Fin (2 ^ 53).
Proof. by vm_compute. Qed.

(** C5, amended: an incorrect submission on the active question [q] makes
    the mistake counter the Number sum of the counter and 1: one more on
    the integers from [- 2 ^ 53] to [2 ^ 53 - 1], and NaN when it was NaN.
    It puts the code of [q] in the review list once (the list is unchanged
    when the code is already there), and leaves [q] the active question. *)
Theorem incorrect_submission (w : World) (q : Entry) :
  currentQuestion (st w) = Some q ->
  isCorrect (mode (st w)) q (userInput (st w)) = false ->
  let w' := step w Submit in
  mistakeCount (st w') = Number.add (mistakeCount (st w)) 1
  /\ (forall n : Z,
        Number.safe n -> mistakeCount (st w) = Number.Fin n ->
        mistakeCount (st w') = Number.Fin (n + 1))
  /\ (mistakeCount (st w) = Number.NaN -> mistakeCount (st w') = Number.NaN)
  /\ code q ∈ reviewList (st w')
  /\ (code q ∈ reviewList (st w) -> reviewList (st w') = reviewList (st w))
  /\ (code q ∉ reviewList (st w) ->
      reviewList (st w') = reviewList (st w) ++ [code q])
  /\ (NoDup (reviewList (st w)) -> NoDup (reviewList (st w')))
  /\ currentQuestion (st w') = Some q
  /\ correctList (st w') = correctList (st w).
Proof.
  intros Hq Hwrong. cbn zeta.
  assert (mistakeCount (st (step w Submit))
          = Number.add (mistakeCount (st w)) 1) as Hcount.
  { unfold step, handler_of, commit, handleSubmit. rewrite Hq, Hwrong.
    unfold addToReviewList, when.
    by destruct (Array_includes (reviewList (st w)) (code q)). }
  split; [exact Hcount|]. split; [|split].
  { intros n Hn Hw. rewrite Hcount, Hw. by apply add_one_safe. }
  { intros Hw. by rewrite Hcount, Hw. }
  unfold step, handler_of, commit, handleSubmit. rewrite Hq, Hwrong.
  unfold addToReviewList, when.
  destruct (Array_includes (reviewList (st w)) (code q)) eqn:Hin; cbn.
  - apply Array_includes_elem_of in Hin. by repeat split.
  - apply Array_includes_not_elem_of in Hin. repeat split; try done.
    + apply elem_of_app. right. left.
    + intros Hnd. apply NoDup_app. split; [done|]. split.
      * intros x Hx ->%list_elem_of_singleton. by destruct Hin.
      * apply NoDup_singleton.
Qed.

Lemma incorrect_submission_witness :
  mistakeCount (st (step Sample.mistaken Submit)) = Number.Fin 1
  /\ reviewList (st (step Sample.mistaken Submit)) = ["01234"]
  /\ currentQuestion (st (step Sample.mistaken Submit)) = Some Sample.testtown.
Proof.
  destruct (incorrect_submission Sample.mistaken Sample.testtown
              eq_refl eq_refl) as (_ & Hm & _ & _ & _ & Hr & _ & Hq & _).
  split; [|split; [|exact Hq]].
  - apply (Hm 0); [by vm_compute | reflexivity].
  - apply Hr. intros Hin. inversion Hin.
Defined.

(** C10: with no active question, submitting returns at its guard and
    changes nothing, while [revealAnswer] reads [currentQuestion.code] of
    the null question and ends in a TypeError. *)
Theorem reveal_has_no_guard (w : World) :
  currentQuestion (st w) = None ->
  completion (handleSubmit (st w)) = Normal tt
  /\ step w Submit = w
  /\ completion (revealAnswer (st w)) =
     Throw (TypeError "Cannot read properties of null (reading 'code')").
Proof.
  intros Hq. unfold step, handler_of, handleSubmit, revealAnswer.
  rewrite Hq. repeat split. by apply commit_nothing.
Qed.

Lemma reveal_has_no_guard_witness :
  step Sample.idle Submit = Sample.idle
  /\ completion (revealAnswer (st Sample.idle)) =
     Throw (TypeError "Cannot read properties of null (reading 'code')").
Proof.
  exact (proj2 (reveal_has_no_guard Sample.idle eq_refl)).
Defined.

(** What a confirmed reset commits, in every world: the three game cells
    are cleared, the dictionary is kept, and the question is the one that
    [generateQuestion] draws in the render that ran the reset, whose
    [correctList] is the list from before the reset. *)
Lemma resetProgress_commit (w : World) (u : Q) :
  let w' := step w (Reset true u) in
  correctList (st w') = [] /\ reviewList (st w') = []
  /\ mistakeCount (st w') = 0
  /\ dictStatus (st w') = dictStatus (st w)
  /\ currentQuestion (st w') = selectNextQuestion (st w) u.
Proof.
  cbn zeta. unfold selectNextQuestion. rewrite generateQuestion_question.
  unfold step, handler_of, commit, resetProgress, when, generateQuestion.
  by destruct (length (pending (st w)) =? 0)%nat.
Qed.

Lemma resetProgress_declined (w : World) (u : Q) :
  step w (Reset false u) = w.
Proof. by apply commit_nothing. Qed.

(** C4: in the world where the one catalog code is mastered, a confirmed
    reset clears the mastered list, the review list and the mistake counter
    and keeps the dictionary status, but it leaves no question: the pool it
    draws from is the one of the mastered list before the reset, which is
    empty, although after the reset the pending pool holds the entry. *)
Theorem resetProgress_draws_from_old_pool (u : Q) :
  let w := Sample.all_mastered in
  let w' := step w (Reset true u) in
  correctList (st w') = [] /\ reviewList (st w') = []
  /\ mistakeCount (st w') = 0
  /\ dictStatus (st w') = dictStatus (st w)
  /\ currentQuestion (st w') = None
  /\ feedback (st w') = "🎉 You have mastered EVERY UK code!"
  /\ pending (st w') = [Sample.testtown].
Proof. repeat split. Qed.

(** ** The dictionary status cycle *)

Lemma cycleStatus_commit (w : World) (c : string) :
  step w (CycleStatus c) =
  {| st := with_dictStatus
             (<[c := Z.rem (status_of (dictStatus (st w)) c + 1) 3]>
                (dictStatus (st w)))
             (st w);
     timers := timers w |}.
Proof.
  unfold step, handler_of, commit, cycleStatus. cbn. by rewrite app_nil_r.
Qed.

(** Case analysis on a status: it is 0, 1 or 2. *)
Ltac status_cases v :=
  match goal with
  | H : is_status v |- _ =>
      let Hv := fresh "Hv" in
      assert (v = 0 \/ v = 1 \/ v = 2) as Hv by (unfold is_status in H; lia);
      destruct Hv as [-> | [-> | ->]]; unfold is_status; done
  end.

Lemma status_of_insert (d : gmap string Z) (c : string) (v : Z) :
  status_of (<[c := v]> d) c = v.
Proof. unfold status_of. by rewrite lookup_insert_eq. Qed.

(** C6: [cycleStatus] moves the status of the code from its value [v] (0
    when the code has no entry) to the remainder of [v + 1] by 3, which is
    [(v + 1) mod 3] on the statuses 0, 1 and 2; it changes no other entry,
    none of the mastered list, the review list and the mistake counter, and
    three applications bring a status back to [v]. *)
Theorem cycleStatus_cycle (w : World) (c : string) :
  let v := status_of (dictStatus (st w)) c in
  let w1 := step w (CycleStatus c) in
  let w3 := run w [CycleStatus c; CycleStatus c; CycleStatus c] in
  status_of (dictStatus (st w1)) c = Z.rem (v + 1) 3
  /\ (forall c', c' <> c -> dictStatus (st w1) !! c' = dictStatus (st w) !! c')
  /\ correctList (st w1) = correctList (st w)
  /\ reviewList (st w1) = reviewList (st w)
  /\ mistakeCount (st w1) = mistakeCount (st w)
  /\ currentQuestion (st w1) = currentQuestion (st w)
  /\ correctList (st w3) = correctList (st w)
  /\ reviewList (st w3) = reviewList (st w)
  /\ mistakeCount (st w3) = mistakeCount (st w)
  /\ (is_status v ->
      status_of (dictStatus (st w1)) c = (v + 1) mod 3
      /\ is_status (status_of (dictStatus (st w1)) c)
      /\ status_of (dictStatus (st w3)) c = v).
Proof.
  cbn zeta. unfold run. cbn [fold_left]. rewrite !cycleStatus_commit.
  cbn [st dictStatus with_dictStatus correctList reviewList mistakeCount
       currentQuestion].
  rewrite !status_of_insert.
  repeat split; try done.
  - intros c' Hc. by rewrite lookup_insert_ne.
  - rewrite Z.rem_mod_nonneg; [done | unfold is_status in *; lia | lia].
  - status_cases (status_of (dictStatus (st w)) c).
  - status_cases (status_of (dictStatus (st w)) c).
  - status_cases (status_of (dictStatus (st w)) c).
Qed.

Lemma cycleStatus_cycle_witness :
  is_status (status_of (dictStatus (st Sample.all_mastered)) "01234")
  /\ status_of
       (dictStatus
          (st (run Sample.all_mastered
                 [CycleStatus "01234"; CycleStatus "01234"; CycleStatus "01234"])))
       "01234" = 2.
Proof.
  assert (is_status (status_of (dictStatus (st Sample.all_mastered)) "01234"))
    as Hv by (unfold is_status; vm_compute; split; discriminate).
  split; [exact Hv|].
  destruct (cycleStatus_cycle Sample.all_mastered "01234")
    as (_ & _ & _ & _ & _ & _ & _ & _ & _ & Hcycle).
  exact (proj2 (proj2 (Hcycle Hv))).
Defined.

(** ** The mastered list along a run *)

Lemma generateQuestion_correctList (s0 s : State) (o : option Entry) (u : Q) :
  correctList (apply_effects s0 (effects (generateQuestion s o u))) =
  correctList s0.
Proof.
  unfold generateQuestion. destruct o; [done|].
  by destruct (length (pending s) =? 0)%nat.
Qed.

Lemma startEffect_correctList (s0 s : State) (u : Q) :
  correctList (apply_effects s0 (effects (startEffect s u))) = correctList s0.
Proof.
  unfold startEffect, when.
  destruct (_ && _); [apply generateQuestion_correctList | done].
Qed.

Lemma revealAnswer_correctList (s0 s : State) :
  correctList (apply_effects s0 (effects (revealAnswer s))) = correctList s0.
Proof.
  unfold revealAnswer, addToReviewList, when, property.
  destruct (currentQuestion s) as [q|]; [|done].
  destruct (String.eqb (mode s) "nameToCode"); cbn;
    by destruct (Array_includes (reviewList s) (code q)).
Qed.

(** One step changes the mastered list in two ways only: a confirmed reset
    empties it, and a submission judged correct appends the code of the
    active question when it is not in the list yet. *)
Lemma correctList_step (w : World) (a : Action) :
  correctList (st (step w a)) = correctList (st w)
  \/ (is_reset a = true /\ correctList (st (step w a)) = [])
  \/ (exists c, correct_answer_for c (w, a)
                /\ (c ∉ correctList (st w))
                /\ correctList (st (step w a)) = correctList (st w) ++ [c]).
Proof.
  destruct a as [text| |u| |location|confirmed u|c|location|m| | |sec u|text
                |c|uniqueCodes u|i u];
    try (left; reflexivity).
  - (* Submit *)
    unfold step, handler_of, commit, handleSubmit.
    destruct (currentQuestion (st w)) as [q|] eqn:Hq; [|by left].
    destruct (isCorrect (mode (st w)) q (userInput (st w))) eqn:Hok.
    + unfold when.
      destruct (Array_includes (correctList (st w)) (code q)) eqn:Hin.
      * left. by destruct (autoNext (st w)).
      * right. right. exists (code q). split; [|split].
        -- split; [done|]. by exists q.
        -- by apply Array_includes_not_elem_of.
        -- by destruct (autoNext (st w)).
    + left. unfold addToReviewList, when.
      by destruct (Array_includes (reviewList (st w)) (code q)).
  - (* Skip *) left. apply generateQuestion_correctList.
  - (* Reveal *) left. apply revealAnswer_correctList.
  - (* Reset *)
    destruct confirmed.
    + right. left. split; [done|]. apply resetProgress_commit.
    + left. by rewrite resetProgress_declined.
  - (* Jump *)
    left. unfold step, handler_of, commit, jumpToLocation, when.
    by destruct (existsb _ _).
  - (* ChooseSection *)
    left. unfold step. destruct (String.eqb sec (appSection (st w))); [done|].
    unfold commit at 1. cbn [st]. by rewrite startEffect_correctList.
  - (* CatalogLoaded *)
    left. unfold step. unfold commit at 1. cbn [st].
    by rewrite startEffect_correctList.
  - (* Fire *)
    left. unfold step. destruct (timers w !! i) as [[|render]|]; [done| |done].
    unfold commit. cbn [st run_callback]. apply generateQuestion_correctList.
Qed.

(** C7: along every run the mastered list changes only by a confirmed reset,
    which empties it, or by a submission judged correct, which appends the
    code of the active question; so every member of the list after the run
    was in the list before it or was the code of the active question at
    some correct submission of the run, and a run without a confirmed reset
    keeps the list it started with as a prefix. *)
Theorem correctList_history (w : World) (acts : list Action) :
  (forall (w0 : World) (a : Action),
      correctList (st (step w0 a)) = correctList (st w0)
      \/ (is_reset a = true /\ correctList (st (step w0 a)) = [])
      \/ (exists c, correct_answer_for c (w0, a)
                    /\ (c ∉ correctList (st w0))
                    /\ correctList (st (step w0 a)) = correctList (st w0) ++ [c]))
  /\ (forall c, c ∈ correctList (st (run w acts)) ->
                c ∈ correctList (st w)
                \/ exists wa, wa ∈ trace w acts /\ correct_answer_for c wa)
  /\ (forallb (fun a => negb (is_reset a)) acts = true ->
      correctList (st w) `prefix_of` correctList (st (run w acts))).
Proof.
  split; [apply correctList_step|]. split.
  - revert w. induction acts as [|a acts IH]; intros w c Hc; [by left|].
    change (run w (a :: acts)) with (run (step w a) acts) in Hc.
    destruct (IH _ _ Hc) as [Hin | (wa & Hwa & Hans)].
    + destruct (correctList_step w a)
        as [Heq | [[_ Heq] | (c' & Hans & _ & Heq)]]; rewrite Heq in Hin.
      * by left.
      * inversion Hin.
      * apply elem_of_app in Hin as [Hin | ->%list_elem_of_singleton];
          [by left|].
        right. exists (w, a). split; [left | done].
    + right. exists wa. split; [by right | done].
  - revert w. induction acts as [|a acts IH]; intros w Hacts; [done|].
    cbn [forallb] in Hacts. apply andb_true_iff in Hacts as [Ha Hacts].
    change (run w (a :: acts)) with (run (step w a) acts).
    etrans; [|by apply IH].
    destruct (correctList_step w a)
      as [Heq | [[Hr _] | (c' & _ & _ & Heq)]]; rewrite ?Heq.
    + done.
    + by rewrite Hr in Ha.
    + by apply prefix_app_r.
Qed.

Lemma correctList_history_witness :
  correctList (st Sample.answering)
    `prefix_of`
  correctList (st (run Sample.answering [Submit; ClickMarker Sample.york])).
Proof.
  exact (proj2 (proj2 (correctList_history Sample.answering
                         [Submit; ClickMarker Sample.york])) eq_refl).
Defined.

(** ** The auto-advance timer *)

Lemma timers_step (w : World) (a : Action) :
  is_fire a = false -> timers w `prefix_of` timers (step w a).
Proof.
  intros Ha. destruct a; try discriminate Ha;
    unfold step; try (unfold commit; cbn [timers]; by apply prefix_app_r).
  - destruct (String.eqb _ _); [done|].
    unfold commit; cbn [timers]. rewrite <- app_assoc. by apply prefix_app_r.
  - unfold commit; cbn [timers]. rewrite <- app_assoc. by apply prefix_app_r.
Qed.

Lemma timers_run (w : World) (acts : list Action) :
  forallb (fun a => negb (is_fire a)) acts = true ->
  timers w `prefix_of` timers (run w acts).
Proof.
  revert w. induction acts as [|a acts IH]; intros w Hacts; [done|].
  cbn [forallb] in Hacts. apply andb_true_iff in Hacts as [Ha Hacts].
  change (run w (a :: acts)) with (run (step w a) acts).
  etrans; [apply timers_step | by apply IH].
  by destruct (is_fire a).
Qed.

Lemma spared_step (w : World) (a : Action) (i : nat) (cb : Callback) :
  spares i a = true ->
  timers w !! i = Some cb -> timers (step w a) !! i = Some cb.
Proof.
  intros Ha Hi. destruct (is_fire a) eqn:Hfire.
  - destruct a as [| | | | | | | | | | | | | | |j u]; try discriminate Hfire.
    cbn [spares] in Ha. apply Nat.ltb_lt in Ha.
    unfold step. destruct (timers w !! j) as [cb'|]; [|done].
    unfold commit. cbn [timers]. apply lookup_app_l_Some.
    by rewrite list_lookup_delete_lt.
  - eapply prefix_lookup_Some; [done | by apply timers_step].
Qed.

Lemma spared_run (w : World) (acts : list Action) (i : nat) (cb : Callback) :
  forallb (spares i) acts = true ->
  timers w !! i = Some cb -> timers (run w acts) !! i = Some cb.
Proof.
  revert w. induction acts as [|a acts IH]; intros w Hacts Hi; [done|].
  cbn [forallb] in Hacts. apply andb_true_iff in Hacts as [Ha Hacts].
  change (run w (a :: acts)) with (run (step w a) acts).
  apply IH; [done|]. by apply spared_step.
Qed.

Lemma handleSubmit_schedules (w : World) (q : Entry) :
  currentQuestion (st w) = Some q ->
  isCorrect (mode (st w)) q (userInput (st w)) = true ->
  autoNext (st w) = true ->
  timers (step w Submit) = timers w ++ [AutoAdvance (st w)].
Proof.
  intros Hq Hok Hauto. unfold step, handler_of, commit, handleSubmit, when.
  rewrite Hq, Hok, Hauto.
  by destruct (Array_includes (correctList (st w)) (code q)).
Qed.

Lemma fire_auto_advance (w : World) (i : nat) (render : State) (u : Q) :
  timers w !! i = Some (AutoAdvance render) ->
  currentQuestion (st (step w (Fire i u))) = selectNextQuestion render u.
Proof.
  intros Hi. unfold step. rewrite Hi. unfold commit, selectNextQuestion.
  cbn [st run_callback]. by rewrite !generateQuestion_question.
Qed.

Lemma fire_auto_advance_commit
  (w : World) (i : nat) (render : State) (u : Q) :
  timers w !! i = Some (AutoAdvance render) ->
  step w (Fire i u) =
  commit {| st := st w; timers := delete i (timers w) |}
         (generateQuestion render None u).
Proof. intros Hi. unfold step. by rewrite Hi. Qed.

(** C9 as stated fails: Testtown is mastered and asked again; the learner
    answers it correctly with auto-advance on, then clicks the marker of
    York, and the focus callback of that click runs.  The callback of
    auto-advance is still pending, and when it runs York is replaced by
    Isle of Wight, an entry of the pending pool. *)
Lemma auto_advance_replaces_clicked_question :
  let w := Sample.reanswering in
  let w2 := run w [Submit; ClickMarker Sample.york; Fire 1 0] in
  currentQuestion (st w2) = Some Sample.york
  /\ correctList (st w2) = correctList (st w)
  /\ pending (st w2) = [Sample.isle_of_wight; Sample.york]
  /\ (exists render, timers w2 = [AutoAdvance render])
  /\ currentQuestion (st (step w2 (Fire 0 0))) = Some Sample.isle_of_wight.
Proof. repeat split. by eexists. Qed.

(** C9, amended: the callback registered by a correct answer with
    auto-advance on is never cancelled.  It is still pending after any
    actions of the learner, and after the run of callbacks registered
    later; when it runs it clears the answer field and sets the question
    of its own selection, the same whatever question a later action had
    set. *)
Theorem auto_advance_never_cancelled
  (w : World) (q : Entry) (acts : list Action) :
  currentQuestion (st w) = Some q ->
  isCorrect (mode (st w)) q (userInput (st w)) = true ->
  autoNext (st w) = true ->
  forallb (spares (length (timers w))) acts = true ->
  let i := length (timers w) in
  let w1 := step w Submit in
  let w' := run w1 acts in
  exists render : State,
    timers w1 !! i = Some (AutoAdvance render)
    /\ timers w' !! i = Some (AutoAdvance render)
    /\ forall (u : Q) (established : option Entry),
         let fired :=
           step {| st := with_currentQuestion established (st w');
                   timers := timers w' |} (Fire i u) in
         userInput (st fired) = ""
         /\ currentQuestion (st fired)
            = currentQuestion (st (step w' (Fire i u)))
         /\ timers fired = delete i (timers w') ++ [FocusInput].
Proof.
  intros Hq Hok Hauto Hacts. cbn zeta. exists (st w).
  assert (timers (step w Submit) !! length (timers w)
          = Some (AutoAdvance (st w))) as Hregistered.
  { rewrite (handleSubmit_schedules w q) by done.
    by rewrite lookup_app_r, Nat.sub_diag. }
  assert (timers (run (step w Submit) acts) !! length (timers w)
          = Some (AutoAdvance (st w))) as Hpending
    by by apply spared_run.
  split; [done|]. split; [done|]. intros u established.
  set (w' := run (step w Submit) acts) in *.
  rewrite (fire_auto_advance_commit
             {| st := with_currentQuestion established (st w');
                timers := timers w' |} _ (st w) u Hpending).
  rewrite (fire_auto_advance_commit w' _ (st w) u Hpending).
  unfold commit. cbn [st timers]. rewrite !generateQuestion_question.
  unfold generateQuestion.
  by destruct (length (pending (st w)) =? 0)%nat.
Qed.

Lemma auto_advance_never_cancelled_witness :
  let w' := run (step Sample.reanswering Submit)
                [ClickMarker Sample.york; Fire 1 0] in
  exists render : State,
    timers w' !! 0%nat = Some (AutoAdvance render)
    /\ currentQuestion
         (st (step {| st := with_currentQuestion None (st w');
                      timers := timers w' |} (Fire 0 0)))
       = currentQuestion (st (step w' (Fire 0 0))).
Proof.
  destruct (auto_advance_never_cancelled Sample.reanswering Sample.testtown
              [ClickMarker Sample.york; Fire 1 0]
              eq_refl eq_refl eq_refl eq_refl)
    as (render & _ & Hpending & Hfired).
  exists render. split; [exact Hpending|].
  exact (proj1 (proj2 (Hfired 0%Q None))).
Defined.

(** ** The depth of the JSON parser *)

Section JsonFuel.

Import Json.

Lemma skip_ws_length (cs : list ascii) :
  (length (skip_ws cs) <= length cs)%nat.
Proof.
  induction cs as [|c cs IH]; simpl; [done|].
  destruct (is_ws c); simpl; lia.
Qed.

Lemma skip_ws_cons_length (cs rest : list ascii) (c : ascii) :
  skip_ws cs = c :: rest -> (length rest < length cs)%nat.
Proof.
  intros H. pose proof (skip_ws_length cs) as Hle. rewrite H in Hle.
  simpl in Hle. lia.
Qed.

Lemma digits_length (cs ds rest : list ascii) :
  digits cs = (ds, rest) -> (length rest <= length cs)%nat.
Proof.
  revert ds rest. induction cs as [|c cs IH]; intros ds rest H; simpl in H.
  - injection H as <- <-. done.
  - destruct (is_digit c).
    + destruct (digits cs) as [ds' rest'] eqn:Hd. injection H as <- <-.
      specialize (IH _ _ eq_refl). simpl. lia.
    + injection H as <- <-. done.
Qed.

Lemma expect_length (lit : string) (cs r : list ascii) :
  expect lit cs = Some r -> (length r <= length cs)%nat.
Proof.
  revert cs. induction lit as [|a lit IH]; intros cs H; simpl in H.
  - by injection H as <-.
  - destruct cs as [|c cs]; [done|]. destruct (Ascii.eqb a c); [|done].
    apply IH in H. simpl. lia.
Qed.

Lemma parse_int_length (cs i r : list ascii) :
  parse_int cs = Some (i, r) -> (length r < length cs)%nat.
Proof.
  unfold parse_int. intros H. destruct cs as [|c cs]; [done|].
  destruct (is_char "0" c); [injection H as <- <-; simpl; lia|].
  destruct (is_digit c); [|done].
  destruct (digits cs) as [ds rest] eqn:E. apply digits_length in E.
  injection H as <- <-. simpl. lia.
Qed.

Lemma parse_frac_length (cs f r : list ascii) :
  parse_frac cs = Some (f, r) -> (length r <= length cs)%nat.
Proof.
  unfold parse_frac. intros H. destruct cs as [|c cs]; [by injection H as <- <-|].
  destruct (is_char "." c); [|by injection H as <- <-].
  destruct (digits cs) as [ds rest] eqn:E. apply digits_length in E.
  destruct ds; [done|]. injection H as <- <-. simpl. lia.
Qed.

Lemma parse_exp_length (cs e r : list ascii) :
  parse_exp cs = Some (e, r) -> (length r <= length cs)%nat.
Proof.
  unfold parse_exp. intros H. destruct cs as [|c cs]; [by injection H as <- <-|].
  destruct (is_char "e" c || is_char "E" c); [|by injection H as <- <-].
  assert (forall sign cs'' : list ascii, (length cs'' <= length cs)%nat ->
            match digits cs'' with
            | ([], _) => None
            | (ds, rest) => Some (c :: sign ++ ds, rest)
            end = Some (e, r) -> (length r <= S (length cs))%nat) as Hd.
  { intros sign cs'' Hle Hm. destruct (digits cs'') as [ds rest] eqn:E.
    apply digits_length in E. destruct ds; [done|]. injection Hm as <- <-. lia. }
  destruct cs as [|d cs']; [by eapply Hd|].
  destruct (is_char "+" d || is_char "-" d);
    eapply Hd; [|exact H| |exact H]; simpl; lia.
Qed.

Lemma parse_number_length (cs r : list ascii) (lit : string) :
  parse_number cs = Some (lit, r) -> (length r < length cs)%nat.
Proof.
  unfold parse_number. intros H.
  assert (forall sign cs1 : list ascii, (length cs1 <= length cs)%nat ->
            ('(i, cs2) ← parse_int cs1;
             '(f, cs3) ← parse_frac cs2;
             '(e, cs4) ← parse_exp cs3;
             Some (string_of_list_ascii (sign ++ i ++ f ++ e), cs4))
            = Some (lit, r) -> (length r < length cs)%nat) as Hn.
  { intros sign cs1 Hle Hm.
    destruct (parse_int cs1) as [[i cs2]|] eqn:Ei; simpl in Hm; [|done].
    destruct (parse_frac cs2) as [[f cs3]|] eqn:Ef; simpl in Hm; [|done].
    destruct (parse_exp cs3) as [[e cs4]|] eqn:Ee; simpl in Hm; [|done].
    apply parse_int_length in Ei. apply parse_frac_length in Ef.
    apply parse_exp_length in Ee. simpl in Hm. injection Hm as _ <-. lia. }
  destruct cs as [|c cs']; [by eapply Hn|].
  destruct (is_char "-" c); eapply Hn; [|exact H| |exact H]; simpl; lia.
Qed.

Lemma parse_string_length (cs r : list ascii) (us : list N) :
  parse_string cs = Some (us, r) -> (length r < length cs)%nat.
Proof.
  revert us r. induction cs as [cs IH] using (induction_ltof1 _ (@length ascii)).
  unfold ltof in IH. intros us r H.
  destruct cs as [|c cs]; [done|]. simpl in H.
  destruct (Ascii.eqb c dquote); [injection H as <- <-; simpl; lia|].
  destruct (Ascii.eqb c backslash).
  - destruct cs as [|e cs]; [done|].
    repeat
      match type of H with
      | (if ?b then _ else _) = _ => destruct b
      | (match hex_digit ?h with _ => _ end) = _ => destruct (hex_digit h)
      | (match ?l with [] => _ | _ :: _ => _ end) = _ => destruct l
      | (?m ≫= _) = Some _ =>
          let E := fresh "E" in
          destruct m as [[? ?]|] eqn:E; [apply IH in E; [|simpl; lia]|];
          simpl in H; simplify_eq
      end;
      simpl in *; try done; try lia.
  - destruct (N_of_ascii c <? 32)%N; [done|].
    destruct (parse_string cs) as [[us' r']|] eqn:E; simpl in H; [|done].
    injection H as <- <-. apply IH in E; simpl; lia.
Qed.

(** A parser whose results are always strictly shorter than its input. *)
Definition shrinks {A} (p : parser A) : Prop :=
  forall cs a r, p cs = Some (a, r) -> (length r < length cs)%nat.

Ltac parser_cases H :=
  repeat
    match type of H with
    | (match skip_ws ?x with _ => _ end) = _ =>
        let E := fresh "Hws" in
        destruct (skip_ws x) eqn:E; [|apply skip_ws_cons_length in E]
    | (if ?b then _ else _) = _ => destruct b eqn:?
    | (?m ≫= _) = Some _ =>
        let E := fresh "Hcall" in
        destruct m as [[? ?]|] eqn:E; simpl in H
    | (?m ≫= _) = Some _ =>
        let E := fresh "Hcall" in
        destruct m as [?|] eqn:E; simpl in H
    | Some _ = Some _ => injection H as <- <-
    | _ => discriminate H
    end.

Lemma value_body_shrinks pe pm :
  shrinks pe -> shrinks pm -> shrinks (value_body pe pm).
Proof.
  intros Hpe Hpm cs a r H. unfold value_body in H. parser_cases H;
    repeat
      match goal with
      | E : expect _ _ = Some _ |- _ => apply expect_length in E
      | E : parse_string _ = Some _ |- _ => apply parse_string_length in E
      | E : parse_number _ = Some _ |- _ => apply parse_number_length in E
      | E : pe _ = Some _ |- _ => apply Hpe in E
      | E : pm _ = Some _ |- _ => apply Hpm in E
      end;
    simpl in *; lia.
Qed.

Lemma elements_body_shrinks pv pe :
  shrinks pv -> shrinks pe -> shrinks (elements_body pv pe).
Proof.
  intros Hpv Hpe cs a r H. unfold elements_body in H. parser_cases H;
    repeat
      match goal with
      | E : pv _ = Some _ |- _ => apply Hpv in E
      | E : pe _ = Some _ |- _ => apply Hpe in E
      end;
    simpl in *; lia.
Qed.

Lemma members_body_shrinks pv pm :
  shrinks pv -> shrinks pm -> shrinks (members_body pv pm).
Proof.
  intros Hpv Hpm cs a r H. unfold members_body in H. parser_cases H;
    repeat
      match goal with
      | E : parse_string _ = Some _ |- _ => apply parse_string_length in E
      | E : pv _ = Some _ |- _ => apply Hpv in E
      | E : pm _ = Some _ |- _ => apply Hpm in E
      end;
    simpl in *; lia.
Qed.

Lemma parse_shrinks (fuel : nat) :
  shrinks (parse_value fuel) /\ shrinks (parse_elements fuel)
  /\ shrinks (parse_members fuel).
Proof.
  induction fuel as [|fuel (Hv & He & Hm)]; [by repeat split|].
  split; [|split]; simpl.
  - by apply value_body_shrinks.
  - by apply elements_body_shrinks.
  - by apply members_body_shrinks.
Qed.

(** The productions only call their parsers on shorter inputs (the first
    value of a list of elements: on the same input). *)
Lemma value_body_ext pe pm pe' pm' cs r :
  (forall x y, (length x < length cs)%nat -> pe x = Some y -> pe' x = Some y) ->
  (forall x y, (length x < length cs)%nat -> pm x = Some y -> pm' x = Some y) ->
  value_body pe pm cs = Some r -> value_body pe' pm' cs = Some r.
Proof.
  intros Hpe Hpm H. unfold value_body in *.
  destruct (skip_ws cs) as [|c rest] eqn:Hws; [done|].
  apply skip_ws_cons_length in Hws.
  repeat
    match type of H with
    | (if ?b then _ else _) = Some _ => destruct b
    | (match skip_ws ?x with _ => _ end) = Some _ => destruct (skip_ws x)
    end;
    try exact H.
  - destruct (pe rest) as [y|] eqn:E; [|done]. by rewrite (Hpe _ _ Hws E).
  - destruct (pm rest) as [y|] eqn:E; [|done]. by rewrite (Hpm _ _ Hws E).
Qed.

Lemma elements_body_ext pv pe pv' pe' cs r :
  shrinks pv ->
  (forall x y, (length x <= length cs)%nat -> pv x = Some y -> pv' x = Some y) ->
  (forall x y, (length x < length cs)%nat -> pe x = Some y -> pe' x = Some y) ->
  elements_body pv pe cs = Some r -> elements_body pv' pe' cs = Some r.
Proof.
  intros Hshr Hpv Hpe H. unfold elements_body in *.
  destruct (pv cs) as [[v rest]|] eqn:Ev; [|done].
  rewrite (Hpv _ _ (le_n _) Ev). apply Hshr in Ev. cbn [mbind option_bind] in *.
  destruct (skip_ws rest) as [|d r'] eqn:Hws; [done|].
  apply skip_ws_cons_length in Hws.
  destruct (is_char "," d); [|exact H].
  destruct (pe r') as [y|] eqn:E; [|done]. rewrite (Hpe r' y ltac:(lia) E).
  exact H.
Qed.

Lemma members_body_ext pv pm pv' pm' cs r :
  shrinks pv ->
  (forall x y, (length x < length cs)%nat -> pv x = Some y -> pv' x = Some y) ->
  (forall x y, (length x < length cs)%nat -> pm x = Some y -> pm' x = Some y) ->
  members_body pv pm cs = Some r -> members_body pv' pm' cs = Some r.
Proof.
  intros Hshr Hpv Hpm H. unfold members_body in *.
  destruct (skip_ws cs) as [|q rest] eqn:Hws; [done|].
  apply skip_ws_cons_length in Hws.
  destruct (Ascii.eqb q dquote); [|done].
  destruct (parse_string rest) as [[k rest1]|] eqn:Ek; [|done].
  apply parse_string_length in Ek. cbn [mbind option_bind] in *.
  destruct (skip_ws rest1) as [|colon rest2] eqn:Hws1; [done|].
  apply skip_ws_cons_length in Hws1.
  destruct (is_char ":" colon); [|done].
  destruct (pv rest2) as [[v rest3]|] eqn:Ev; [|done].
  rewrite (Hpv rest2 (v, rest3) ltac:(lia) Ev). apply Hshr in Ev. cbn [mbind option_bind] in *.
  destruct (skip_ws rest3) as [|d r'] eqn:Hws3; [done|].
  apply skip_ws_cons_length in Hws3.
  destruct (is_char "," d); [|exact H].
  destruct (pm r') as [y|] eqn:E; [|done]. rewrite (Hpm r' y ltac:(lia) E).
  exact H.
Qed.

Lemma parse_fuel_below (n : nat) (cs : list ascii) :
  (length cs < n)%nat ->
  (forall f g r, parse_value f cs = Some r -> (2 * length cs - 1 <= g)%nat ->
                 parse_value g cs = Some r)
  /\ (forall f g r, parse_elements f cs = Some r -> (2 * length cs <= g)%nat ->
                    parse_elements g cs = Some r)
  /\ (forall f g r, parse_members f cs = Some r -> (2 * length cs <= g)%nat ->
                    parse_members g cs = Some r).
Proof.
  revert cs. induction n as [|n IH]; intros cs Hlen; [lia|].
  assert (forall x : list ascii, (length x < S n)%nat ->
            forall f g r, parse_value f x = Some r ->
                          (2 * length x - 1 <= g)%nat ->
                          parse_value g x = Some r) as Hvalue.
  { intros x Hx f g [a rest] H Hg.
    destruct f as [|f]; [done|].
    pose proof (proj1 (parse_shrinks (S f)) _ _ _ H) as Hshr.
    destruct g as [|g]; [lia|]. simpl in *.
    eapply value_body_ext; [| |exact H].
    - intros y r Hy Hr. eapply (IH y); [lia|exact Hr|lia].
    - intros y r Hy Hr. eapply (IH y); [lia|exact Hr|lia]. }
  split; [by apply Hvalue|]. split.
  - intros f g [a rest] H Hg. destruct f as [|f]; [done|].
    pose proof (proj1 (proj2 (parse_shrinks (S f))) _ _ _ H) as Hshr.
    destruct g as [|g]; [lia|]. simpl in *.
    eapply elements_body_ext; [apply parse_shrinks| | |exact H].
    + intros y r Hy Hr. eapply Hvalue; [lia|exact Hr|lia].
    + intros y r Hy Hr. eapply (IH y); [lia|exact Hr|lia].
  - intros f g [a rest] H Hg. destruct f as [|f]; [done|].
    pose proof (proj2 (proj2 (parse_shrinks (S f))) _ _ _ H) as Hshr.
    destruct g as [|g]; [lia|]. simpl in *.
    eapply members_body_ext; [apply parse_shrinks| | |exact H].
    + intros y r Hy Hr. eapply Hvalue; [lia|exact Hr|lia].
    + intros y r Hy Hr. eapply (IH y); [lia|exact Hr|lia].
Qed.

(** The depth given to the parser by [Json.parse] is enough: a value found
    at any depth is found at twice the length of the text. *)
Lemma parse_value_fuel (fuel : nat) (cs : list ascii) r :
  parse_value fuel cs = Some r -> parse_value (2 * length cs) cs = Some r.
Proof.
  intros H.
  eapply (proj1 (parse_fuel_below (S (length cs)) cs (Nat.lt_succ_diag_r _)));
    [exact H | lia].
Qed.

(** So a text that is one JSON value at some depth is parsed to it. *)
Lemma parse_complete (text : string) (fuel : nat) (v : value) rest :
  parse_value fuel (list_ascii_of_string text) = Some (v, rest) ->
  skip_ws rest = [] ->
  parse text = Normal v.
Proof.
  intros H Hrest. unfold parse. by rewrite (parse_value_fuel _ _ _ H), Hrest.
Qed.

End JsonFuel.

(** ** Start-up reads *)

Section Load.

Import Persist.

Lemma or_else_absent (x : option string) (fallback : string) :
  x = None \/ x = Some "" -> or_else x fallback = fallback.
Proof. by intros [-> | ->]. Qed.

Lemma or_else_stored (v fallback : string) :
  v <> "" -> or_else (Some v) fallback = v.
Proof. intros Hv. unfold or_else. by destruct (String.eqb_spec v ""). Qed.

Lemma parse_or_absent (x : option string) (fallback : Json.value) :
  x = None \/ x = Some "" -> parse_or x fallback = Normal fallback.
Proof. by intros [-> | ->]. Qed.

Lemma parse_or_stored (v : string) (fallback : Json.value) :
  v <> "" -> parse_or (Some v) fallback = Json.parse v.
Proof. intros Hv. unfold parse_or. by destruct (String.eqb_spec v ""). Qed.

(** [parseInt] on some stored texts. *)
Lemma parseInt10_examples :
  parseInt10 "12" = Number.Fin 12
  /\ parseInt10 " -7 mistakes" = Number.Fin (-7)
  /\ parseInt10 "9007199254740993" = Number.Fin (2 ^ 53)
  /\ parseInt10 "1e+21" = Number.Fin 1
  /\ parseInt10 "NaN" = Number.NaN
  /\ parseInt10 "" = Number.NaN.
Proof. by vm_compute. Qed.

(** C8 as stated fails: with the text "{oops" stored for the mastered
    list, [JSON.parse] throws and the first render of [App] ends in that
    SyntaxError instead of starting from the empty list; stored for the
    mode it is taken as the mode, and for the mistake counter it gives
    NaN. *)
Lemma corrupt_value_is_not_absent :
  let ls (key : string) : gmap string string := {[ key := "{oops" ]} in
  not_json "{oops"
  /\ init_correctList (ls "uk_codes_mastered")
     = Throw (SyntaxError "Unexpected token in JSON")
  /\ mount (ls "uk_codes_mastered")
     = Throw (SyntaxError "Unexpected token in JSON")
  /\ init_mode (ls "uk_codes_mode") = "{oops"
  /\ init_mistakeCount (ls "uk_codes_mistakes") = Number.NaN.
Proof.
  cbn zeta. split; [by eexists|]. by repeat split.
Qed.

(** C8, amended: each persisted key falls back on its own: a key that is
    absent, or holds the empty string, gives the documented default of its
    cell, whatever the other keys hold, and with all seven so the first
    render starts from the defaults.  A stored text is not checked: for
    the mastered list, the review list, the dictionary status and the two
    flags the cell is what [JSON.parse] makes of the text, and a text that
    it rejects ends the initializer, and with it the first render, in that
    exception; the mode is the stored text as it is; the mistake counter
    is what [parseInt] reads from it.  A first render that completes holds
    in each cell the value of that cell's initializer. *)
Theorem load_defaults_and_failures (ls : gmap string string) :
  ((absent ls "uk_codes_mastered" ->
    init_correctList ls = Normal (Json.Array []))
   /\ (absent ls "uk_codes_review" ->
       init_reviewList ls = Normal (Json.Array []))
   /\ (absent ls "uk_codes_mistakes" -> init_mistakeCount ls = Number.Fin 0)
   /\ (absent ls "uk_codes_dict_status" ->
       init_dictStatus ls = Normal (Json.Object []))
   /\ (absent ls "uk_codes_mode" -> init_mode ls = "nameToCode")
   /\ (absent ls "uk_codes_auto_next" ->
       init_autoNext ls = Normal (Json.Bool true))
   /\ (absent ls "uk_codes_show_dots" ->
       init_showAllDots ls = Normal (Json.Bool true)))
  /\ ((forall key, key ∈ persisted_keys -> absent ls key) ->
      mount ls = Normal defaults)
  /\ (forall (v : string) (r : Completion Json.value),
        v <> "" -> Json.parse v = r ->
        (ls !! "uk_codes_mastered" = Some v -> init_correctList ls = r)
        /\ (ls !! "uk_codes_review" = Some v -> init_reviewList ls = r)
        /\ (ls !! "uk_codes_dict_status" = Some v -> init_dictStatus ls = r)
        /\ (ls !! "uk_codes_auto_next" = Some v -> init_autoNext ls = r)
        /\ (ls !! "uk_codes_show_dots" = Some v -> init_showAllDots ls = r))
  /\ (forall v : string,
        v <> "" ->
        (ls !! "uk_codes_mode" = Some v -> init_mode ls = v)
        /\ (ls !! "uk_codes_mistakes" = Some v ->
            init_mistakeCount ls = parseInt10 v))
  /\ (forall e : Exn,
        init_autoNext ls = Throw e \/ init_showAllDots ls = Throw e
        \/ init_dictStatus ls = Throw e \/ init_correctList ls = Throw e
        \/ init_reviewList ls = Throw e ->
        exists e', mount ls = Throw e')
  /\ (forall cells : Cells,
        mount ls = Normal cells ->
        cell_mode cells = init_mode ls
        /\ init_autoNext ls = Normal (cell_autoNext cells)
        /\ init_showAllDots ls = Normal (cell_showAllDots cells)
        /\ init_dictStatus ls = Normal (cell_dictStatus cells)
        /\ init_correctList ls = Normal (cell_correctList cells)
        /\ init_reviewList ls = Normal (cell_reviewList cells)
        /\ cell_mistakeCount cells = init_mistakeCount ls).
Proof.
  split; [|split; [|split; [|split; [|split]]]].
  - unfold absent, init_mode, init_autoNext, init_showAllDots, init_dictStatus,
      init_correctList, init_reviewList, init_mistakeCount, getItem.
    repeat split; intros Habsent;
      rewrite ?or_else_absent, ?parse_or_absent by done; try done.
    by destruct Habsent as [-> | ->].
  - intros Habsent.
    assert (forall key, key ∈ persisted_keys ->
              getItem ls key = None \/ getItem ls key = Some "") as Hget
      by exact Habsent.
    unfold mount, init_mode, init_autoNext, init_showAllDots, init_dictStatus,
      init_correctList, init_reviewList, init_mistakeCount.
    rewrite !or_else_absent, !parse_or_absent
      by (apply Hget; unfold persisted_keys; repeat constructor).
    by destruct (Hget "uk_codes_mistakes") as [-> | ->];
      [unfold persisted_keys; repeat constructor | |].
  - intros v r Hv Hr.
    unfold init_correctList, init_reviewList, init_dictStatus, init_autoNext,
      init_showAllDots, getItem.
    repeat split; intros ->;
      by rewrite ?parse_or_stored, ?or_else_stored.
  - intros v Hv. unfold init_mode, init_mistakeCount, getItem.
    split; intros ->; [by rewrite or_else_stored|].
    by destruct (String.eqb_spec v "").
  - intros e. unfold mount.
    destruct (init_autoNext ls) as [a|ea]; [|by eexists].
    destruct (init_showAllDots ls) as [d|ed]; [|by eexists].
    destruct (init_dictStatus ls) as [ds|eds]; [|by eexists].
    destruct (init_correctList ls) as [c|ec]; [|by eexists].
    destruct (init_reviewList ls) as [r|er]; [|by eexists].
    intros [H|[H|[H|[H|H]]]]; discriminate H.
  - intros cells. unfold mount.
    destruct (init_autoNext ls) as [a|ea]; [|done].
    destruct (init_showAllDots ls) as [d|ed]; [|done].
    destruct (init_dictStatus ls) as [ds|eds]; [|done].
    destruct (init_correctList ls) as [c|ec]; [|done].
    destruct (init_reviewList ls) as [r|er]; [|done].
    intros [= <-]. by repeat split.
Qed.

(** The store after a reset that no save effect has followed: the key of
    the mistake counter is removed, the other keys hold values. *)
Lemma load_defaults_and_failures_witness :
  let ls : gmap string string :=
    {[ "uk_codes_mastered" := "[]"; "uk_codes_review" := "[]";
       "uk_codes_mode" := "codeToName"; "uk_codes_auto_next" := "false";
       "uk_codes_show_dots" := "true" ]} in
  init_mistakeCount ls = Number.Fin 0
  /\ init_dictStatus ls = Normal (Json.Object [])
  /\ init_mode ls = "codeToName"
  /\ init_autoNext ls = Normal (Json.Bool false)
  /\ init_reviewList {[ "uk_codes_review" := "[1,]" ]}
     = Throw (SyntaxError "Unexpected token in JSON").
Proof.
  cbn zeta.
  match goal with
  | |- init_mistakeCount ?ls = _ /\ _ =>
      destruct (load_defaults_and_failures ls)
        as ((_ & _ & Hcount & Hdict & _) & _ & Hjson & Hmode & _)
  end.
  split; [by apply Hcount; left|]. split; [by apply Hdict; left|].
  split; [by apply (Hmode "codeToName")|].
  split; [by apply (Hjson "false" (Normal (Json.Bool false)))|].
  destruct (load_defaults_and_failures {[ "uk_codes_review" := "[1,]" ]})
    as (_ & _ & Hthrow & _).
  by apply (Hthrow "[1,]" (Throw (SyntaxError "Unexpected token in JSON"))).
Defined.

End Load.

(** * Further properties *)

(** ** Revealing and answering correctly *)

(** X1: revealing the answer of the active question [q] ends normally,
    makes the mistake counter the Number sum of the counter and 1 (one
    more on the integers from [- 2 ^ 53] to [2 ^ 53 - 1], NaN when it was
    NaN), puts the code of [q] in the review list once, shows the code
    (mode "nameToCode") or the place (any other mode) in the feedback, and
    leaves the question, the mastered list and the pending timers as they
    are. *)
Theorem reveal_active_question (w : World) (q : Entry) :
  currentQuestion (st w) = Some q ->
  let w' := step w Reveal in
  completion (revealAnswer (st w)) = Normal tt
  /\ mistakeCount (st w') = Number.add (mistakeCount (st w)) 1
  /\ (forall n : Z,
        Number.safe n -> mistakeCount (st w) = Number.Fin n ->
        mistakeCount (st w') = Number.Fin (n + 1))
  /\ (mistakeCount (st w) = Number.NaN -> mistakeCount (st w') = Number.NaN)
  /\ code q ∈ reviewList (st w')
  /\ (code q ∈ reviewList (st w) -> reviewList (st w') = reviewList (st w))
  /\ (code q ∉ reviewList (st w) ->
      reviewList (st w') = reviewList (st w) ++ [code q])
  /\ feedback (st w') =
     "The answer is: "
     +:+ (if String.eqb (mode (st w)) "nameToCode" then code q else place q)
  /\ currentQuestion (st w') = Some q
  /\ correctList (st w') = correctList (st w)
  /\ timers w' = timers w.
Proof.
  intros Hq. cbn zeta.
  assert (mistakeCount (st (step w Reveal))
          = Number.add (mistakeCount (st w)) 1) as Hcount.
  { unfold step, handler_of, commit, revealAnswer, addToReviewList, when,
      property.
    rewrite Hq.
    destruct (String.eqb (mode (st w)) "nameToCode"); cbn;
      by destruct (Array_includes (reviewList (st w)) (code q)). }
  split; [|split; [exact Hcount|split; [|split]]].
  { unfold revealAnswer, addToReviewList, when, property. rewrite Hq.
    destruct (String.eqb (mode (st w)) "nameToCode"); cbn;
      by destruct (Array_includes (reviewList (st w)) (code q)). }
  { intros n Hn Hw. rewrite Hcount, Hw. by apply add_one_safe. }
  { intros Hw. by rewrite Hcount, Hw. }
  unfold step, handler_of, commit, revealAnswer, addToReviewList, when, property.
  rewrite Hq.
  destruct (String.eqb (mode (st w)) "nameToCode"); cbn;
    destruct (Array_includes (reviewList (st w)) (code q)) eqn:Hin; cbn;
    rewrite ?app_nil_r;
    (apply Array_includes_elem_of in Hin
     || apply Array_includes_not_elem_of in Hin);
    repeat split; try done; try (apply elem_of_app; right; left).
Qed.

Lemma reveal_active_question_witness :
  mistakeCount (st (step Sample.answering Reveal)) = Number.Fin 1
  /\ reviewList (st (step Sample.answering Reveal)) = ["01234"]
  /\ feedback (st (step Sample.answering Reveal)) = "The answer is: 01234".
Proof.
  destruct (reveal_active_question Sample.answering Sample.testtown eq_refl)
    as (_ & _ & Hm & _ & _ & _ & Hr & Hf & _).
  split; [|split; [|exact Hf]].
  - apply (Hm 0); [by vm_compute | reflexivity].
  - apply Hr. intros Hin. inversion Hin.
Defined.

(** X2: a submission judged correct puts the code of the active question
    [q] in the mastered list once (the list is unchanged when the code is
    already there) and touches neither the mistake counter, the review
    list, the question nor the typed text.  With auto-advance on it
    registers exactly one callback, the [generateQuestion] of this render;
    with auto-advance off it registers none and asks for the next location
    in the feedback. *)
Theorem correct_submission (w : World) (q : Entry) :
  currentQuestion (st w) = Some q ->
  isCorrect (mode (st w)) q (userInput (st w)) = true ->
  let w' := step w Submit in
  code q ∈ correctList (st w')
  /\ (code q ∈ correctList (st w) -> correctList (st w') = correctList (st w))
  /\ (code q ∉ correctList (st w) ->
      correctList (st w') = correctList (st w) ++ [code q])
  /\ mistakeCount (st w') = mistakeCount (st w)
  /\ reviewList (st w') = reviewList (st w)
  /\ currentQuestion (st w') = Some q
  /\ userInput (st w') = userInput (st w)
  /\ (autoNext (st w) = true ->
      timers w' = timers w ++ [AutoAdvance (st w)]
      /\ feedback (st w') = "✅ Correct!")
  /\ (autoNext (st w) = false ->
      timers w' = timers w
      /\ feedback (st w') = "✅ Correct! Select next location on map.").
Proof.
  intros Hq Hok. cbn zeta.
  unfold step, handler_of, commit, handleSubmit, when. rewrite Hq, Hok.
  destruct (Array_includes (correctList (st w)) (code q)) eqn:Hin;
    destruct (autoNext (st w)); cbn; rewrite ?app_nil_r;
    (apply Array_includes_elem_of in Hin
     || apply Array_includes_not_elem_of in Hin);
    repeat split; try done; try (apply elem_of_app; right; left).
Qed.

Lemma correct_submission_witness :
  correctList (st (step Sample.answering Submit)) = ["01234"]
  /\ timers (step Sample.answering Submit)
     = [AutoAdvance (st Sample.answering)].
Proof.
  destruct (correct_submission Sample.answering Sample.testtown
              eq_refl eq_refl) as (_ & _ & Hc & _ & _ & _ & _ & Ht & _).
  split; [apply Hc; intros Hin; inversion Hin | apply Ht; reflexivity].
Defined.

(** ** What the answer check ignores and accepts *)

Lemma lower_char_space (c : ascii) :
  JsString.is_space (JsString.lower_char c) = JsString.is_space c.
Proof. by destruct c as [[] [] [] [] [] [] [] []]. Qed.

Lemma lower_char_idem (c : ascii) :
  JsString.lower_char (JsString.lower_char c) = JsString.lower_char c.
Proof. by destruct c as [[] [] [] [] [] [] [] []]. Qed.

Lemma toLowerCase_idem (s : string) :
  JsString.toLowerCase (JsString.toLowerCase s) = JsString.toLowerCase s.
Proof.
  induction s as [|c s IH]; simpl; [done|]. by rewrite lower_char_idem, IH.
Qed.

Lemma strip_toLowerCase (s : string) :
  JsString.strip_whitespace (JsString.toLowerCase s) =
  JsString.toLowerCase (JsString.strip_whitespace s).
Proof.
  induction s as [|c s IH]; simpl; [done|]. rewrite lower_char_space.
  destruct (JsString.is_space c); simpl; by rewrite IH.
Qed.

Lemma strip_whitespace_idem (s : string) :
  JsString.strip_whitespace (JsString.strip_whitespace s) =
  JsString.strip_whitespace s.
Proof.
  induction s as [|c s IH]; simpl; [done|].
  destruct (JsString.is_space c) eqn:Hc; simpl; [done|]. by rewrite Hc, IH.
Qed.

Lemma isCorrect_normalize (m : string) (q : Entry) (input : string) :
  isCorrect m q input =
  if String.eqb m "nameToCode"
  then String.eqb (with_leading_zero (normalize input)) (normalize (code q))
  else JsString.includes (JsString.toLowerCase (place q)) (normalize input).
Proof.
  unfold isCorrect, normalize. cbv zeta.
  by rewrite startsWith_zero, !remove_spaces_strip.
Qed.

(** X3: a blank answer (empty, or whitespace only) is judged correct for
    every question in every mode other than "nameToCode"; in the mode
    "nameToCode" it is judged as the answer "0". *)
Theorem blank_answer (m : string) (q : Entry) (input : string) :
  JsString.strip_whitespace input = "" ->
  (m <> "nameToCode" -> isCorrect m q input = true)
  /\ isCorrect "nameToCode" q input = isCorrect "nameToCode" q "0".
Proof.
  intros Hblank. rewrite !isCorrect_normalize.
  assert (normalize input = "") as -> by (unfold normalize; by rewrite Hblank).
  split; [|done].
  intros Hm. destruct (String.eqb_spec m "nameToCode") as [|_]; [done|].
  by destruct (JsString.toLowerCase (place q)).
Qed.

Lemma blank_answer_witness :
  isCorrect "codeToName" Sample.isle_of_wight "   " = true.
Proof.
  by apply (blank_answer "codeToName" Sample.isle_of_wight "   " eq_refl).
Defined.

(** X4: the answer check reads the typed text only through its normal form
    (whitespace stripped, lower-cased): two inputs with the same normal
    form are judged alike, so lower-casing the input or removing its
    whitespace never changes the verdict. *)
Theorem isCorrect_reads_normal_form (m : string) (q : Entry) (i1 i2 : string) :
  (normalize i1 = normalize i2 -> isCorrect m q i1 = isCorrect m q i2)
  /\ isCorrect m q (JsString.toLowerCase i1) = isCorrect m q i1
  /\ isCorrect m q (JsString.strip_whitespace i1) = isCorrect m q i1.
Proof.
  rewrite !isCorrect_normalize. split; [by intros ->|].
  unfold normalize.
  by rewrite strip_toLowerCase, toLowerCase_idem, strip_whitespace_idem.
Qed.

Lemma isCorrect_reads_normal_form_witness :
  isCorrect "nameToCode" Sample.testtown " 0 12 34 "
  = isCorrect "nameToCode" Sample.testtown "01234".
Proof.
  by apply (isCorrect_reads_normal_form "nameToCode" Sample.testtown
              " 0 12 34 " "01234").
Defined.

(** ** Progress along a run *)

(** [generateQuestion] writes the feedback, the typed text, the question
    and the zoom flag, and nothing else. *)
Lemma generateQuestion_frame (s0 s : State) (o : option Entry) (u : Q) :
  let s' := apply_effects s0 (effects (generateQuestion s o u)) in
  reviewList s' = reviewList s0 /\ mistakeCount s' = mistakeCount s0
  /\ dictStatus s' = dictStatus s0 /\ areaCodes s' = areaCodes s0
  /\ appSection s' = appSection s0 /\ loading s' = loading s0
  /\ mode s' = mode s0 /\ autoNext s' = autoNext s0
  /\ showAllDots s' = showAllDots s0.
Proof.
  unfold generateQuestion. destruct o; [done|].
  by destruct (length (pending s) =? 0)%nat.
Qed.

Lemma startEffect_frame (s0 s : State) (u : Q) :
  let s' := apply_effects s0 (effects (startEffect s u)) in
  reviewList s' = reviewList s0 /\ mistakeCount s' = mistakeCount s0
  /\ dictStatus s' = dictStatus s0 /\ areaCodes s' = areaCodes s0
  /\ appSection s' = appSection s0 /\ loading s' = loading s0
  /\ mode s' = mode s0 /\ autoNext s' = autoNext s0
  /\ showAllDots s' = showAllDots s0.
Proof.
  unfold startEffect, when.
  destruct (_ && _); [apply generateQuestion_frame | done].
Qed.

Lemma commit_startEffect (w : World) (u : Q) :
  reviewList (st (commit w (startEffect (st w) u))) = reviewList (st w)
  /\ mistakeCount (st (commit w (startEffect (st w) u))) = mistakeCount (st w).
Proof. split; apply startEffect_frame. Qed.

(** Only a submission, a reveal and a reset can change the review list and
    the mistake counter. *)
Lemma quiet_step (w : World) (a : Action) :
  match a with
  | Submit | Reveal | Reset _ _ => True
  | _ => reviewList (st (step w a)) = reviewList (st w)
         /\ mistakeCount (st (step w a)) = mistakeCount (st w)
  end.
Proof.
  destruct a as [text| |u| |location|confirmed u|c|location|m| | |sec u|text
                |c|uniqueCodes u|i u]; try done.
  - split; apply generateQuestion_frame.
  - unfold step, handler_of, commit, jumpToLocation, when.
    by destruct (existsb _ _).
  - unfold step. destruct (String.eqb sec (appSection (st w))); [done|].
    split;
      [by rewrite (proj1 (commit_startEffect _ _))
      |by rewrite (proj2 (commit_startEffect _ _))].
  - unfold step. split;
      [by rewrite (proj1 (commit_startEffect _ _))
      |by rewrite (proj2 (commit_startEffect _ _))].
  - unfold step. destruct (timers w !! i) as [[|render]|]; [done| |done].
    unfold commit. cbn [st run_callback]. split; apply generateQuestion_frame.
Qed.

Lemma reviewList_step (w : World) (a : Action) :
  reviewList (st (step w a)) = reviewList (st w)
  \/ (is_reset a = true /\ reviewList (st (step w a)) = [])
  \/ (exists c, failure_for c (w, a)
                /\ (c ∉ reviewList (st w))
                /\ reviewList (st (step w a)) = reviewList (st w) ++ [c]).
Proof.
  pose proof (quiet_step w a) as Hquiet.
  destruct a as [text| |u| |location|confirmed u|c|location|m| | |sec u|text
                |c|uniqueCodes u|i u];
    try (left; exact (proj1 Hquiet)); clear Hquiet.
  - (* Submit *)
    unfold step, handler_of, commit, handleSubmit.
    destruct (currentQuestion (st w)) as [q|] eqn:Hq; [|by left].
    destruct (isCorrect (mode (st w)) q (userInput (st w))) eqn:Hok.
    + left. unfold when.
      by destruct (Array_includes (correctList (st w)) (code q)),
                  (autoNext (st w)).
    + unfold addToReviewList, when.
      destruct (Array_includes (reviewList (st w)) (code q)) eqn:Hin;
        [by left|].
      right. right. exists (code q). split; [|split].
      * exists q. by repeat split; try right.
      * by apply Array_includes_not_elem_of.
      * done.
  - (* Reveal *)
    unfold step, handler_of, commit, revealAnswer, addToReviewList, when,
      property.
    destruct (currentQuestion (st w)) as [q|] eqn:Hq; [|by left].
    destruct (String.eqb (mode (st w)) "nameToCode"); cbn;
      (destruct (Array_includes (reviewList (st w)) (code q)) eqn:Hin;
       [by left|]);
      right; right; exists (code q);
      (split; [exists q; by repeat split; try left|]);
      (split; [by apply Array_includes_not_elem_of | done]).
  - (* Reset *)
    destruct confirmed.
    + right. left. split; [done|]. apply resetProgress_commit.
    + left. by rewrite resetProgress_declined.
Qed.

Lemma mistakeCount_step (w : World) (a : Action) :
  mistakeCount (st (step w a)) =
  if is_reset a then Number.Fin 0
  else if is_mistake (w, a) then Number.add (mistakeCount (st w)) 1
  else mistakeCount (st w).
Proof.
  pose proof (quiet_step w a) as Hquiet.
  destruct a as [text| |u| |location|confirmed u|c|location|m| | |sec u|text
                |c|uniqueCodes u|i u];
    try (cbn [is_reset is_mistake]; exact (proj2 Hquiet));
    clear Hquiet; cbn [is_reset is_mistake].
  - unfold step, handler_of, commit, handleSubmit.
    destruct (currentQuestion (st w)) as [q|] eqn:Hq; [|by destruct w].
    destruct (isCorrect (mode (st w)) q (userInput (st w))) eqn:Hok.
    + unfold when.
      by destruct (Array_includes (correctList (st w)) (code q)),
                  (autoNext (st w)).
    + unfold addToReviewList, when.
      by destruct (Array_includes (reviewList (st w)) (code q)).
  - unfold step, handler_of, commit, revealAnswer, addToReviewList, when,
      property.
    destruct (currentQuestion (st w)) as [q|] eqn:Hq; [|done].
    destruct (String.eqb (mode (st w)) "nameToCode"); cbn;
      by destruct (Array_includes (reviewList (st w)) (code q)).
  - destruct confirmed.
    + apply resetProgress_commit.
    + by rewrite resetProgress_declined.
Qed.

(** The counter read at start-up is a double, and every run keeps it
    one. *)
Lemma init_mistakeCount_double (ls : gmap string string) :
  Number.is_double (Persist.init_mistakeCount ls).
Proof.
  unfold Persist.init_mistakeCount.
  destruct (Persist.getItem ls "uk_codes_mistakes") as [v|]; [|done].
  destruct (String.eqb v ""); [done|]. unfold Persist.parseInt10.
  destruct (Persist.trim_start (list_ascii_of_string v)) as [|c r].
  - cbn. done.
  - destruct (Json.is_char "-" c); [|destruct (Json.is_char "+" c)];
      (destruct (Json.digits _) as [[|d ds] rest];
       [done | apply of_Z_double]).
Qed.

Lemma mistakeCount_double (w : World) (acts : list Action) :
  Number.is_double (mistakeCount (st w)) ->
  Number.is_double (mistakeCount (st (run w acts))).
Proof.
  revert w. induction acts as [|a acts IH]; intros w Hw; [done|].
  change (run w (a :: acts)) with (run (step w a) acts). apply IH.
  rewrite mistakeCount_step.
  destruct (is_reset a); [done|].
  destruct (is_mistake (w, a)); [apply add_double | done].
Qed.

(** The number of reveals and incorrect submissions in a run. *)
Lemma mistakes_cons (w : World) (a : Action) (acts : list Action) :
  length (List.filter is_mistake (trace w (a :: acts)))
  = ((if is_mistake (w, a) then 1 else 0)
     + length (List.filter is_mistake (trace (step w a) acts)))%nat.
Proof. cbn [trace List.filter]. by destruct (is_mistake (w, a)). Qed.

(** X5: the mastered list and the review list never get a duplicate: when
    both are duplicate-free before a run, they are after it, whatever the
    actions. *)
Theorem lists_stay_duplicate_free (w : World) (acts : list Action) :
  NoDup (correctList (st w)) -> NoDup (reviewList (st w)) ->
  NoDup (correctList (st (run w acts)))
  /\ NoDup (reviewList (st (run w acts))).
Proof.
  revert w. induction acts as [|a acts IH]; intros w Hc Hr; [done|].
  change (run w (a :: acts)) with (run (step w a) acts). apply IH.
  - destruct (correctList_step w a)
      as [-> | [[_ ->] | (c & _ & Hout & ->)]];
      [done | apply NoDup_nil_2 |].
    apply NoDup_app. split; [done|]. split; [|apply NoDup_singleton].
    by intros x Hx ->%list_elem_of_singleton.
  - destruct (reviewList_step w a)
      as [-> | [[_ ->] | (c & _ & Hout & ->)]];
      [done | apply NoDup_nil_2 |].
    apply NoDup_app. split; [done|]. split; [|apply NoDup_singleton].
    by intros x Hx ->%list_elem_of_singleton.
Qed.

Lemma lists_stay_duplicate_free_witness :
  NoDup (correctList (st (run Sample.answering [Submit; Submit; Reveal])))
  /\ NoDup (reviewList (st (run Sample.answering [Submit; Submit; Reveal]))).
Proof.
  apply (lists_stay_duplicate_free Sample.answering [Submit; Submit; Reveal]);
    apply NoDup_nil_2.
Defined.

(** X6: the mistake counter is set to 0 by a confirmed reset, made the
    Number sum of the counter and 1 by each reveal and each incorrect
    submission of an active question, and changed by nothing else.  So
    after a run without a confirmed reset, a counter that was the integer
    [n], not below [- 2 ^ 53], is [n] plus the number of those tasks as
    long as that sum is at most [2 ^ 53]; a counter of [2 ^ 53] stays
    [2 ^ 53], and a counter that is NaN stays NaN. *)
Theorem mistakeCount_accounting (w : World) (acts : list Action) :
  (forall (w0 : World) (a : Action),
      mistakeCount (st (step w0 a)) =
      if is_reset a then Number.Fin 0
      else if is_mistake (w0, a) then Number.add (mistakeCount (st w0)) 1
      else mistakeCount (st w0))
  /\ (forallb (fun a => negb (is_reset a)) acts = true ->
      (forall n : Z,
         mistakeCount (st w) = Number.Fin n ->
         - 2 ^ 53 <= n ->
         n + Z.of_nat (length (List.filter is_mistake (trace w acts)))
         <= 2 ^ 53 ->
         mistakeCount (st (run w acts)) =
         Number.Fin
           (n + Z.of_nat (length (List.filter is_mistake (trace w acts)))))
      /\ (mistakeCount (st w) = Number.Fin (2 ^ 53) ->
          mistakeCount (st (run w acts)) = Number.Fin (2 ^ 53))
      /\ (mistakeCount (st w) = Number.NaN ->
          mistakeCount (st (run w acts)) = Number.NaN)).
Proof.
  split; [apply mistakeCount_step|].
  revert w. induction acts as [|a acts IH]; intros w Hacts.
  { split; [|done]. intros n Hn _ _. cbn. by rewrite Hn, Z.add_0_r. }
  cbn [forallb] in Hacts. apply andb_true_iff in Hacts as [Ha Hacts].
  change (run w (a :: acts)) with (run (step w a) acts).
  destruct (IH (step w a) Hacts) as (IHn & IHtop & IHnan).
  pose proof (mistakeCount_step w a) as Hstep.
  destruct (is_reset a); [done|].
  split; [|split].
  - intros n Hn Hlo Hhi. rewrite mistakes_cons in Hhi |- *.
    destruct (is_mistake (w, a)).
    + rewrite Hn, add_one_safe in Hstep by (unfold Number.safe; lia).
      rewrite (IHn (n + 1) Hstep) by lia. f_equal. lia.
    + rewrite Hn in Hstep. by rewrite (IHn n Hstep) by lia.
  - intros Hn. apply IHtop. rewrite Hstep, Hn.
    destruct (is_mistake (w, a)); [|done]. apply add_one_absorbed.
  - intros Hn. apply IHnan. rewrite Hstep, Hn.
    by destruct (is_mistake (w, a)).
Qed.

Lemma mistakeCount_accounting_witness :
  mistakeCount (st (run Sample.mistaken [Submit; Reveal; Skip (1 # 2)]))
  = Number.Fin 2.
Proof.
  apply (proj1 (proj2 (mistakeCount_accounting Sample.mistaken
                         [Submit; Reveal; Skip (1 # 2)]) eq_refl) 0);
    [reflexivity | by vm_compute | by vm_compute].
Defined.

(** X7: the review list changes only by a confirmed reset, which empties
    it, or by a reveal or an incorrect submission, which appends the code
    of the active question; a correct answer never takes a code out of it.
    So every member after a run was a member before it or was missed or
    revealed during it, and a run without a confirmed reset keeps the list
    it started with as a prefix. *)
Theorem reviewList_history (w : World) (acts : list Action) :
  (forall (w0 : World) (a : Action),
      reviewList (st (step w0 a)) = reviewList (st w0)
      \/ (is_reset a = true /\ reviewList (st (step w0 a)) = [])
      \/ (exists c, failure_for c (w0, a)
                    /\ (c ∉ reviewList (st w0))
                    /\ reviewList (st (step w0 a)) = reviewList (st w0) ++ [c]))
  /\ (forall c, c ∈ reviewList (st (run w acts)) ->
                c ∈ reviewList (st w)
                \/ exists wa, wa ∈ trace w acts /\ failure_for c wa)
  /\ (forallb (fun a => negb (is_reset a)) acts = true ->
      reviewList (st w) `prefix_of` reviewList (st (run w acts))).
Proof.
  split; [apply reviewList_step|]. split.
  - revert w. induction acts as [|a acts IH]; intros w c Hc; [by left|].
    change (run w (a :: acts)) with (run (step w a) acts) in Hc.
    destruct (IH _ _ Hc) as [Hin | (wa & Hwa & Hfail)].
    + destruct (reviewList_step w a)
        as [Heq | [[_ Heq] | (c' & Hfail & _ & Heq)]]; rewrite Heq in Hin.
      * by left.
      * inversion Hin.
      * apply elem_of_app in Hin as [Hin | ->%list_elem_of_singleton];
          [by left|].
        right. exists (w, a). split; [left | done].
    + right. exists wa. split; [by right | done].
  - revert w. induction acts as [|a acts IH]; intros w Hacts; [done|].
    cbn [forallb] in Hacts. apply andb_true_iff in Hacts as [Ha Hacts].
    change (run w (a :: acts)) with (run (step w a) acts).
    etrans; [|by apply IH].
    destruct (reviewList_step w a)
      as [Heq | [[Hr _] | (c' & _ & _ & Heq)]]; rewrite ?Heq.
    + done.
    + by rewrite Hr in Ha.
    + by apply prefix_app_r.
Qed.

Lemma reviewList_history_witness :
  reviewList (st Sample.mistaken)
    `prefix_of`
  reviewList (st (run Sample.mistaken [Submit; TypeAnswer "01234"; Submit])).
Proof.
  exact (proj2 (proj2 (reviewList_history Sample.mistaken
                         [Submit; TypeAnswer "01234"; Submit])) eq_refl).
Defined.

(** ** Timers, the start effect and the sections *)

Lemma Array_includes_app (arr : list string) (c x : string) :
  Array_includes (arr ++ [c]) x = Array_includes arr x || String.eqb c x.
Proof.
  induction arr as [|y arr IH]; simpl; [by rewrite orb_false_r|].
  by rewrite IH, orb_assoc.
Qed.

(** Mastering one more code takes the entries with that code out of the
    pending pool. *)
Lemma pending_after_mastering (s s' : State) (c : string) :
  areaCodes s' = areaCodes s -> correctList s' = correctList s ++ [c] ->
  pending s' =
  List.filter (fun e => negb (String.eqb c (code e))) (pending s).
Proof.
  intros Ha Hc. unfold pending. rewrite Ha, Hc. clear Ha Hc.
  induction (areaCodes s) as [|e l IH]; simpl; [done|].
  rewrite Array_includes_app, negb_orb.
  destruct (Array_includes (correctList s) (code e)); simpl; [exact IH|].
  destruct (String.eqb c (code e)); simpl; by rewrite IH.
Qed.

Lemma random_index_one (u : Q) :
  (0 <= u)%Q -> (u < 1)%Q -> random_index u 1 = 0.
Proof.
  intros H0 H1.
  pose proof (random_index_range u 1 H0 H1 (Nat.lt_0_succ 0)) as H.
  change (Z.of_nat 1) with 1 in H. lia.
Qed.

(** X8: the callback of auto-advance draws from the pool of the render
    that registered it, in which the code just answered is still pending.
    When the question answered correctly was the only pending entry, the
    pending pool is empty after the answer, and yet the callback asks the
    same question again instead of reporting that every code is
    mastered. *)
Theorem auto_advance_asks_last_question_again
  (w : World) (q : Entry) (u : Q) :
  currentQuestion (st w) = Some q ->
  isCorrect (mode (st w)) q (userInput (st w)) = true ->
  autoNext (st w) = true ->
  pending (st w) = [q] ->
  (0 <= u)%Q -> (u < 1)%Q ->
  let w1 := step w Submit in
  let w2 := step w1 (Fire (length (timers w)) u) in
  pending (st w1) = []
  /\ currentQuestion (st w2) = Some q
  /\ feedback (st w2) = ""
  /\ pending (st w2) = [].
Proof.
  intros Hq Hok Hauto Hpending H0 H1. cbn zeta.
  assert (code q ∉ correctList (st w)) as Hout.
  { apply (pending_elem_of (st w) q). rewrite Hpending. left. }
  assert (pending (st (step w Submit)) = []) as Hdone.
  { rewrite (pending_after_mastering (st w) _ (code q)).
    - rewrite Hpending. simpl. by rewrite String.eqb_refl.
    - unfold step, handler_of, commit, handleSubmit, when.
      rewrite Hq, Hok, Hauto.
      by destruct (Array_includes (correctList (st w)) (code q)).
    - unfold step, handler_of, commit, handleSubmit, when.
      rewrite Hq, Hok, Hauto.
      apply Array_includes_not_elem_of in Hout. by rewrite Hout. }
  assert (timers (step w Submit) !! length (timers w)
          = Some (AutoAdvance (st w))) as Htimer.
  { rewrite (handleSubmit_schedules w q) by done.
    by rewrite lookup_app_r, Nat.sub_diag. }
  split; [done|].
  unfold step at 1 3 5. rewrite Htimer. unfold commit.
  cbn [st run_callback].
  repeat split.
  - rewrite generateQuestion_question, Hpending. cbn [length Nat.eqb].
    by rewrite (random_index_one u H0 H1).
  - unfold generateQuestion. by rewrite Hpending.
  - unfold generateQuestion. rewrite Hpending. cbn [length Nat.eqb].
    rewrite (random_index_one u H0 H1). exact Hdone.
Qed.

Lemma auto_advance_asks_last_question_again_witness :
  let w := {| st := with_userInput "01234"
                      (with_currentQuestion (Some Sample.testtown)
                         (st Sample.idle));
              timers := [] |} in
  currentQuestion (st (run w [Submit; Fire 0 (1 # 2)])) = Some Sample.testtown
  /\ pending (st (run w [Submit; Fire 0 (1 # 2)])) = [].
Proof.
  cbn zeta.
  assert (0 <= 1 # 2)%Q as H0 by (unfold Qle; simpl; lia).
  assert (1 # 2 < 1)%Q as H1 by (unfold Qlt; simpl; lia).
  destruct (auto_advance_asks_last_question_again
              {| st := with_userInput "01234"
                         (with_currentQuestion (Some Sample.testtown)
                            (st Sample.idle));
                 timers := [] |}
              Sample.testtown (1 # 2) eq_refl eq_refl eq_refl eq_refl H0 H1)
    as (_ & Hq & _ & Hp).
  split; [exact Hq | exact Hp].
Defined.

Lemma startEffect_idle (s : State) (u : Q) :
  currentQuestion s <> None \/ appSection s <> "GAME" ->
  startEffect s u = mret tt.
Proof.
  unfold startEffect, when. intros [Hq | Hsec].
  - destruct (currentQuestion s) as [q|]; [|done].
    rewrite bool_decide_eq_true_2 by done. by rewrite andb_false_r.
  - by destruct (String.eqb_spec (appSection s) "GAME").
Qed.

Lemma startEffect_draws (s : State) (u : Q) :
  currentQuestion s = None -> appSection s = "GAME" -> loading s = false ->
  currentQuestion (apply_effects s (effects (startEffect s u)))
  = selectNextQuestion s u.
Proof.
  intros Hq Hsec Hl. unfold startEffect, when, selectNextQuestion.
  rewrite Hq, Hsec, Hl, bool_decide_eq_false_2 by (by intros [? ?]).
  cbn [String.eqb Ascii.eqb Bool.eqb negb andb].
  destruct (areaCodes s) as [|e l] eqn:Ha; [|done].
  rewrite generateQuestion_question. unfold pending. rewrite Ha. exact Hq.
Qed.

(** X9: when the catalog arrives, the list and the loading flag are
    stored and the progress is left alone; in the game section with no
    question set, the start effect then draws the first question from the
    loaded entries that are not mastered (none when there is none, as for
    an empty catalog); in any other section, or with a question already
    set, the question stays as it is. *)
Theorem catalog_loaded (w : World) (data : list Entry) (u : Q) :
  let w' := step w (CatalogLoaded data u) in
  areaCodes (st w') = data /\ loading (st w') = false
  /\ correctList (st w') = correctList (st w)
  /\ reviewList (st w') = reviewList (st w)
  /\ mistakeCount (st w') = mistakeCount (st w)
  /\ dictStatus (st w') = dictStatus (st w)
  /\ (appSection (st w) = "GAME" -> currentQuestion (st w) = None ->
      currentQuestion (st w')
      = selectNextQuestion (with_areaCodes data (st w)) u)
  /\ (appSection (st w) <> "GAME" \/ currentQuestion (st w) <> None ->
      currentQuestion (st w') = currentQuestion (st w)).
Proof.
  cbn zeta. unfold step.
  set (w1 := commit w (handler_of (st w) (CatalogLoaded data u))).
  assert (st w1 = with_loading false (with_areaCodes data (st w))) as Hw1
    by reflexivity.
  destruct (startEffect_frame (st w1) (st w1) u)
    as (Hr & Hm & Hd & Ha & _ & Hl & _).
  unfold commit at 1 2 3 4 5 6 7 8. cbn [st].
  rewrite Hr, Hm, Hd, Ha, Hl, startEffect_correctList.
  repeat split; try (by rewrite Hw1).
  - intros Hsec Hq. rewrite startEffect_draws by (by rewrite Hw1).
    unfold selectNextQuestion. rewrite !generateQuestion_question.
    by rewrite Hw1.
  - intros Hidle. rewrite startEffect_idle; [by rewrite Hw1|].
    rewrite Hw1. tauto.
Qed.

Lemma catalog_loaded_witness :
  let w := {| st := with_loading true (Sample.fresh [] None ""); timers := [] |} in
  currentQuestion (st (step w (CatalogLoaded [Sample.york] (1 # 2))))
  = selectNextQuestion
      (with_areaCodes [Sample.york] (with_loading true (Sample.fresh [] None "")))
      (1 # 2).
Proof.
  cbn zeta.
  apply (catalog_loaded
           {| st := with_loading true (Sample.fresh [] None ""); timers := [] |}
           [Sample.york] (1 # 2)); reflexivity.
Defined.

(** X10: choosing the section that is already shown does nothing.
    Choosing another one stores it and leaves the progress alone; a
    question that is set stays the question, so the entry picked in the
    dictionary list is the question found on return to the game; with no
    question set and the catalog loaded, entering the game draws one from
    the pending pool. *)
Theorem section_switch (w : World) (sec : string) (u : Q) :
  let w' := step w (ChooseSection sec u) in
  (sec = appSection (st w) -> w' = w)
  /\ appSection (st w') = sec
  /\ correctList (st w') = correctList (st w)
  /\ reviewList (st w') = reviewList (st w)
  /\ mistakeCount (st w') = mistakeCount (st w)
  /\ dictStatus (st w') = dictStatus (st w)
  /\ (currentQuestion (st w) <> None ->
      currentQuestion (st w') = currentQuestion (st w))
  /\ (forall location,
        currentQuestion (st (run w [Jump location; ChooseSection sec u]))
        = Some location)
  /\ (currentQuestion (st w) = None -> loading (st w) = false ->
      sec = "GAME" -> appSection (st w) <> "GAME" ->
      currentQuestion (st w') = selectNextQuestion (st w) u).
Proof.
  cbn zeta.
  assert (forall w0 : World,
            currentQuestion (st w0) <> None ->
            currentQuestion (st (step w0 (ChooseSection sec u)))
            = currentQuestion (st w0)) as Hkeep.
  { intros w0 Hq. unfold step.
    destruct (String.eqb sec (appSection (st w0))); [done|].
    set (w1 := commit w0 (handler_of (st w0) (ChooseSection sec u))).
    by rewrite startEffect_idle by (by left). }
  assert (forall location,
            currentQuestion (st (run w [Jump location; ChooseSection sec u]))
            = Some location) as Hjump.
  { intros location. unfold run. cbn [fold_left]. rewrite Hkeep.
    - unfold step, handler_of, commit, jumpToLocation, when.
      by destruct (existsb _ _).
    - unfold step, handler_of, commit, jumpToLocation, when.
      by destruct (existsb _ _). }
  split; [intros ->; unfold step; by rewrite String.eqb_refl|].
  destruct (String.eqb_spec sec (appSection (st w))) as [Hsame|Hother].
  { assert (step w (ChooseSection sec u) = w) as ->.
    { unfold step. by rewrite Hsame, String.eqb_refl. }
    repeat split; try done.
    intros _ _ Hgame Hnot. by rewrite <- Hsame, Hgame in Hnot. }
  set (s1 := with_appSection sec (st w)).
  assert (st (step w (ChooseSection sec u))
          = apply_effects s1 (effects (startEffect s1 u))) as ->.
  { unfold step. by destruct (String.eqb_spec sec (appSection (st w))). }
  destruct (startEffect_frame s1 s1 u) as (Hr & Hm & Hd & _ & Hs & _).
  rewrite Hr, Hm, Hd, Hs, startEffect_correctList.
  repeat split; try done.
  - intros Hq. by rewrite startEffect_idle by (by left).
  - intros Hq Hl -> _. rewrite startEffect_draws by done.
    unfold selectNextQuestion. by rewrite !generateQuestion_question.
Qed.

Lemma section_switch_witness :
  let w := {| st := with_appSection "DICTIONARY" (st Sample.idle);
              timers := [] |} in
  currentQuestion (st (step w (ChooseSection "GAME" (1 # 2))))
  = selectNextQuestion (with_appSection "DICTIONARY" (st Sample.idle)) (1 # 2).
Proof.
  cbn zeta.
  apply (section_switch
           {| st := with_appSection "DICTIONARY" (st Sample.idle);
              timers := [] |} "GAME" (1 # 2)); try reflexivity.
  discriminate.
Defined.

(** ** The dictionary filter *)

Lemma toLowerCase_app (a b : string) :
  JsString.toLowerCase (a +:+ b)
  = JsString.toLowerCase a +:+ JsString.toLowerCase b.
Proof.
  induction a as [|c a IH]; [done|].
  exact (f_equal (String (JsString.lower_char c)) IH).
Qed.

Lemma string_app_assoc (a b c : string) : (a +:+ b) +:+ c = a +:+ b +:+ c.
Proof. induction a as [|x a IH]; [done|]. exact (f_equal (String x) IH). Qed.

Lemma is_substring_trans (a b c : string) :
  JsString.is_substring a b -> JsString.is_substring b c ->
  JsString.is_substring a c.
Proof.
  intros (p1 & q1 & ->) (p2 & q2 & ->).
  exists (p2 +:+ p1), (q1 +:+ q2). by rewrite !string_app_assoc.
Qed.

Lemma is_substring_lower (a b : string) :
  JsString.is_substring a b ->
  JsString.is_substring (JsString.toLowerCase a) (JsString.toLowerCase b).
Proof.
  intros (p & q & ->). exists (JsString.toLowerCase p), (JsString.toLowerCase q).
  by rewrite !toLowerCase_app.
Qed.

Lemma includes_empty (s : string) : JsString.includes s "" = true.
Proof. by destruct s. Qed.

Lemma filteredDictionary_elem_of (s : State) (e : Entry) :
  e ∈ filteredDictionary s <->
  e ∈ areaCodes s
  /\ (JsString.is_substring (JsString.toLowerCase (searchTerm s))
                            (JsString.toLowerCase (place e))
      \/ JsString.is_substring (searchTerm s)
                               (JsString.strip_whitespace (code e))).
Proof.
  unfold filteredDictionary.
  rewrite (list_elem_of_In (List.filter _ _) e), filter_In, <- list_elem_of_In.
  by rewrite orb_true_iff, !includes_substring, remove_spaces_strip.
Qed.

(** X11: the dictionary list is a sublist of the catalog, in catalog
    order.  An entry is listed exactly when its lower-cased place contains
    the lower-cased search text or its code without whitespace contains
    the search text.  The empty search text lists the whole catalog, and a
    longer search text never adds an entry: what is listed for a text is
    listed for every part of that text. *)
Theorem filteredDictionary_narrows (s : State) :
  sublist (filteredDictionary s) (areaCodes s)
  /\ (forall e, e ∈ filteredDictionary s <->
        e ∈ areaCodes s
        /\ (JsString.is_substring (JsString.toLowerCase (searchTerm s))
                                  (JsString.toLowerCase (place e))
            \/ JsString.is_substring (searchTerm s)
                                     (JsString.strip_whitespace (code e))))
  /\ filteredDictionary (with_searchTerm "" s) = areaCodes s
  /\ (forall (t t' : string) (e : Entry),
        JsString.is_substring t t' ->
        e ∈ filteredDictionary (with_searchTerm t' s) ->
        e ∈ filteredDictionary (with_searchTerm t s)).
Proof.
  split; [|split; [apply filteredDictionary_elem_of|split]].
  - unfold filteredDictionary.
    induction (areaCodes s) as [|e l IH]; simpl; [done|].
    destruct (_ || _); by constructor.
  - unfold filteredDictionary. cbn [searchTerm areaCodes with_searchTerm].
    change (JsString.toLowerCase "") with "".
    induction (areaCodes s) as [|e l IH]; [done|].
    cbn [List.filter]. by rewrite includes_empty, IH.
  - intros t t' e Hsub. rewrite !filteredDictionary_elem_of.
    cbn [searchTerm areaCodes with_searchTerm].
    intros [He [Hplace | Hcode]]; (split; [done|]).
    + left. eapply is_substring_trans; [|exact Hplace].
      by apply is_substring_lower.
    + right. by eapply is_substring_trans.
Qed.

Lemma filteredDictionary_narrows_witness :
  Sample.isle_of_wight
    ∈ filteredDictionary
        (with_searchTerm "Wight" (st Sample.answering)).
Proof.
  apply (proj2 (proj2 (proj2 (filteredDictionary_narrows (st Sample.answering))))
           "Wight" "of Wight" Sample.isle_of_wight).
  - by exists "of ", "".
  - apply filteredDictionary_elem_of. split; [right; left|].
    left. by exists "isle ", "".
Defined.

(** ** Catalog load *)

Section CatalogFacts.

Import Catalog.

Lemma cleanCode_leading_zero (raw : string) :
  raw <> "" -> cleanCode raw = with_leading_zero raw.
Proof.
  intros Hraw. unfold cleanCode. rewrite startsWith_zero.
  by destruct raw.
Qed.

Lemma with_leading_zero_normalize (s : string) :
  normalize s = s -> normalize (with_leading_zero s) = with_leading_zero s.
Proof.
  intros Hs. destruct s as [|c s]; [done|]. cbn [with_leading_zero].
  destruct (Ascii.eqb c "0"); [done|].
  change (normalize (String "0" (String c s)))
    with (String "0" (normalize (String c s))).
  by rewrite Hs.
Qed.

Lemma isCorrect_code_mode (q : Entry) (input : string) :
  isCorrect "nameToCode" q input =
  String.eqb (with_leading_zero (normalize input)) (normalize (code q)).
Proof. by rewrite isCorrect_normalize. Qed.

(** X12: the loader puts "0" in front of a code that does not start with
    it and keeps a code that does, and doing so twice changes nothing
    more.  For a code spelled in the CSV without whitespace or capitals,
    the quiz accepts both the spelling of the CSV and the code as loaded
    as the answer in the mode "nameToCode". *)
Theorem cleanCode_accepted (raw p : string) (la lo : Q) :
  JsString.startsWith (cleanCode raw) "0" = true
  /\ cleanCode (cleanCode raw) = cleanCode raw
  /\ (raw <> "" -> normalize raw = raw ->
      isCorrect "nameToCode" (mkEntry (cleanCode raw) p la lo) raw = true
      /\ isCorrect "nameToCode" (mkEntry (cleanCode raw) p la lo)
                   (cleanCode raw) = true).
Proof.
  assert (JsString.startsWith (cleanCode raw) "0" = true) as Hzero.
  { unfold cleanCode.
    by destruct (JsString.startsWith raw "0") eqn:H. }
  split; [done|]. split.
  { unfold cleanCode at 1. by rewrite Hzero. }
  intros Hraw Hnorm. rewrite !isCorrect_code_mode, !String.eqb_eq.
  cbn [code]. rewrite cleanCode_leading_zero by done.
  rewrite !with_leading_zero_normalize, Hnorm by done.
  split; [done|]. destruct raw as [|c r]; [done|]. cbn [with_leading_zero].
  destruct (Ascii.eqb c "0") eqn:Hc; cbn [with_leading_zero]; [by rewrite Hc|].
  by rewrite Ascii.eqb_refl.
Qed.

Lemma cleanCode_accepted_witness :
  isCorrect "nameToCode" (mkEntry (cleanCode "1904") "York" 0 0) "1904" = true.
Proof.
  by apply (cleanCode_accepted "1904" "York" 0 0).
Defined.

(** The loop invariant of the [forEach]: [seen] holds the codes of
    [uniqueCodes], which are distinct, and [uniqueCodes] consists of the
    first entry of each code visited so far. *)
Lemma visit_invariant (visited : list Entry) :
  let acc := fold_left visit visited ([], ∅) in
  (forall c, c ∈ acc.2 <-> c ∈ map code acc.1)
  /\ NoDup (map code acc.1)
  /\ sublist acc.1 visited
  /\ (forall c, c ∈ map code visited <-> c ∈ map code acc.1)
  /\ (forall e, e ∈ acc.1 <-> first_of_code visited e).
Proof.
  cbn zeta. induction visited as [|item visited IH] using rev_ind.
  { cbn. split; [|split; [|split; [|split]]]; try done.
    - intros c. split; [set_solver | intros H; inversion H].
    - constructor.
    - intros e. split; [intros H; inversion H|].
      intros (before & after & H & _). by destruct before. }
  rewrite fold_left_app. cbn [fold_left].
  destruct (fold_left visit visited ([], ∅)) as [uniq seen].
  destruct IH as (Hseen & Hnd & Hsub & Hcodes & Hfirst). cbn [fst snd] in *.
  assert (forall e, first_of_code visited e ->
                    first_of_code (visited ++ [item]) e) as Hgrow.
  { intros e (before & after & -> & Hb).
    exists before, (after ++ [item]). split; [|done]. by rewrite <- app_assoc. }
  assert (forall e, first_of_code (visited ++ [item]) e ->
                    first_of_code visited e
                    \/ (e = item /\ code item ∉ map code visited)) as Hlast.
  { intros e (before & after & Heq & Hb).
    destruct after as [|a after _] using rev_ind.
    - apply app_inj_tail in Heq as [-> ->]. by right.
    - rewrite app_comm_cons, app_assoc in Heq.
      apply app_inj_tail in Heq as [-> _]. left. by exists before, after. }
  unfold visit. destruct (decide (code item ∈ seen)) as [Hin | Hout].
  - rewrite bool_decide_eq_true_2 by done. cbn [fst snd].
    assert (code item ∈ map code visited) as Hold
      by (apply Hcodes, Hseen, Hin).
    split; [done|]. split; [done|]. split; [by apply sublist_inserts_r|].
    split.
    + intros c. rewrite map_app, elem_of_app, <- Hcodes. split; [|by left].
      intros [H | H]; [done|]. by apply list_elem_of_singleton in H as ->.
    + intros e. split; [intros He; by apply Hgrow, Hfirst|].
      intros [He | [_ Hnew]]%Hlast; [by apply Hfirst | by destruct Hnew].
  - rewrite bool_decide_eq_false_2 by done. cbn [fst snd].
    assert (code item ∉ map code visited) as Hnew.
    { intros H. apply Hout, Hseen, Hcodes, H. }
    split; [|split; [|split; [|split]]].
    + intros c. rewrite map_app, elem_of_app, elem_of_union, Hseen.
      cbn [map]. rewrite elem_of_singleton, list_elem_of_singleton. tauto.
    + rewrite map_app. apply NoDup_app. split; [done|].
      split; [|apply NoDup_singleton].
      intros c Hc ->%list_elem_of_singleton. apply Hout, Hseen, Hc.
    + by apply sublist_app.
    + intros c. rewrite !map_app, !elem_of_app, Hcodes. tauto.
    + intros e. rewrite elem_of_app. split.
      * intros [He | ->%list_elem_of_singleton]; [by apply Hgrow, Hfirst|].
        exists visited, []. by split.
      * intros [He | [-> _]]%Hlast; [left; by apply Hfirst | right; left].
Qed.

(** X13: the de-duplication keeps, for every code of the cleaned rows,
    exactly its first entry: the codes of the result are distinct, they
    are the codes of the input, and the result is a sublist of the input
    (the order of first appearance is kept). *)
Theorem uniqueCodes_first_entries (cleanData : list Entry) :
  NoDup (map code (uniqueCodes cleanData))
  /\ sublist (uniqueCodes cleanData) cleanData
  /\ (forall c, c ∈ map code cleanData <->
                c ∈ map code (uniqueCodes cleanData))
  /\ (forall e, e ∈ uniqueCodes cleanData <->
        exists before after : list Entry,
          cleanData = before ++ e :: after /\ code e ∉ map code before).
Proof.
  destruct (visit_invariant cleanData) as (_ & Hnd & Hsub & Hcodes & Hfirst).
  by repeat split; try apply Hcodes; try apply Hfirst.
Qed.

Section SortFacts.

Variable localeCompare : string -> string -> Z.

Lemma insert_perm (x : Entry) (l : list Entry) :
  insert localeCompare x l ≡ₚ x :: l.
Proof.
  induction l as [|y l IH]; simpl; [done|].
  destruct (localeCompare (place y) (place x) <=? 0); [|done].
  rewrite IH. apply Permutation_swap.
Qed.

Lemma sort_from_perm (l acc : list Entry) :
  fold_left (fun sorted x => insert localeCompare x sorted) l acc ≡ₚ acc ++ l.
Proof.
  revert acc. induction l as [|x l IH]; intros acc; simpl.
  - by rewrite app_nil_r.
  - rewrite IH, insert_perm. apply Permutation_middle.
Qed.

Hypothesis localeCompare_total :
  forall a b : string, localeCompare a b <= 0 \/ localeCompare b a <= 0.

Lemma insert_sorted (x : Entry) (l : list Entry) :
  Sorted (ordered localeCompare) l ->
  Sorted (ordered localeCompare) (insert localeCompare x l).
Proof.
  induction l as [|y l IH]; intros Hl; simpl.
  - by repeat constructor.
  - apply Sorted_inv in Hl as [Hl Hy].
    destruct (Z.leb_spec (localeCompare (place y) (place x)) 0) as [Hle|Hgt].
    + constructor; [by apply IH|].
      destruct l as [|z l]; simpl.
      * by repeat constructor.
      * apply HdRel_inv in Hy.
        destruct (localeCompare (place z) (place x) <=? 0);
          by constructor.
    + constructor; [by constructor|]. constructor. unfold ordered.
      destruct (localeCompare_total (place x) (place y)); [done | lia].
Qed.

Lemma sort_from_sorted (l acc : list Entry) :
  Sorted (ordered localeCompare) acc ->
  Sorted (ordered localeCompare)
    (fold_left (fun sorted x => insert localeCompare x sorted) l acc).
Proof.
  revert acc. induction l as [|x l IH]; intros acc Hacc; simpl; [done|].
  by apply IH, insert_sorted.
Qed.

End SortFacts.

(** X14: the catalog handed to the engine holds the first entry of each
    code of the cleaned rows and nothing else, so no two of its entries
    share a code; and when the comparison of places is total, each entry
    is followed by one that the comparison does not put before it. *)
Theorem load_unique_and_ordered
  (localeCompare : string -> string -> Z) (cleanData : list Entry) :
  load localeCompare cleanData ≡ₚ uniqueCodes cleanData
  /\ NoDup (map code (load localeCompare cleanData))
  /\ (forall c, c ∈ map code cleanData <->
                c ∈ map code (load localeCompare cleanData))
  /\ ((forall a b, localeCompare a b <= 0 \/ localeCompare b a <= 0) ->
      Sorted (ordered localeCompare) (load localeCompare cleanData)).
Proof.
  assert (load localeCompare cleanData ≡ₚ uniqueCodes cleanData) as Hperm.
  { unfold load, sort. by rewrite sort_from_perm. }
  destruct (visit_invariant cleanData) as (_ & Hnd & _ & Hcodes & _).
  fold (uniqueCodes cleanData) in Hnd, Hcodes.
  split; [done|]. split; [by rewrite Hperm|].
  split; [intros c; by rewrite Hperm|].
  intros Htotal. unfold load, sort. apply sort_from_sorted; [done|].
  constructor.
Qed.

Lemma load_unique_and_ordered_witness :
  let by_length (a b : string) :=
    Z.of_nat (String.length a) - Z.of_nat (String.length b) in
  Sorted (ordered by_length)
         (load by_length [Sample.testtown; Sample.york; Sample.testtown]).
Proof.
  cbn zeta.
  apply (load_unique_and_ordered
           (fun a b => Z.of_nat (String.length a) - Z.of_nat (String.length b))).
  intros a b. lia.
Defined.

End CatalogFacts.

(** ** The markers on the map *)

Lemma marker_hidden (s : State) (location : Entry) :
  Render.marker s location = None <->
  appSection s = "GAME" /\ showAllDots s = false
  /\ code location ∈ correctList s.
Proof.
  unfold Render.marker, Render.isGameMastered.
  rewrite <- Array_includes_elem_of.
  destruct (String.eqb_spec (appSection s) "GAME") as [Hsec|Hsec].
  - destruct (showAllDots s),
      (Array_includes (correctList s) (code location)); cbn [negb andb];
      split; try done; try (by intros (_ & ? & ?)).
  - split; [done | by intros [? _]].
Qed.

(** X15: a marker is left out exactly in the game section, with "Show
    Mastered" off, for an entry whose code is mastered.  So in that case
    the map shows the pending pool, entry for entry, and in every other
    case (another section, or "Show Mastered" on) it shows the whole
    catalog. *)
Theorem markers_shown (s : State) :
  (forall location,
      Render.marker s location = None <->
      appSection s = "GAME" /\ showAllDots s = false
      /\ code location ∈ correctList s)
  /\ (appSection s = "GAME" -> showAllDots s = false ->
      map fst (Render.markers s) = pending s)
  /\ (appSection s <> "GAME" \/ showAllDots s = true ->
      map fst (Render.markers s) = areaCodes s).
Proof.
  split; [apply marker_hidden|]. unfold Render.markers, pending. split.
  - intros Hsec Hdots.
    induction (areaCodes s) as [|e l IH]; [done|].
    destruct (Render.marker s e) as [v|] eqn:Hm; cbn; rewrite Hm; cbn.
    + assert (code e ∉ correctList s) as Hout.
      { intros Hin. assert (Render.marker s e = None) as Hnone
          by (by apply marker_hidden).
        by rewrite Hm in Hnone. }
      apply Array_includes_not_elem_of in Hout. rewrite Hout. cbn.
      by rewrite <- IH.
    + apply marker_hidden in Hm as (_ & _ & Hin).
      apply Array_includes_elem_of in Hin. by rewrite Hin.
  - intros Hall.
    induction (areaCodes s) as [|e l IH]; [done|].
    destruct (Render.marker s e) as [v|] eqn:Hm; cbn; rewrite Hm; cbn;
      [by rewrite <- IH at 2|].
    apply marker_hidden in Hm as (Hsec & Hdots & _).
    destruct Hall as [Hall | Hall]; [done | by rewrite Hall in Hdots].
Qed.

Lemma markers_shown_witness :
  map fst (Render.markers (with_showAllDots false (st Sample.all_mastered)))
  = pending (with_showAllDots false (st Sample.all_mastered)).
Proof.
  by apply (markers_shown (with_showAllDots false (st Sample.all_mastered))).
Defined.

(** X16: the colour of a marker that is drawn follows a fixed priority.
    In the game section: red, radius 8, for the active question, else
    green for a mastered code, else orange for a code under review, else
    grey; mastered wins over review, and the active question over both.
    In any other section: yellow, radius 9, for the hovered entry, else
    green and blue for the dictionary statuses 2 and 1, else grey.  Stroke
    and fill always have the same colour. *)
Theorem marker_colour (s : State) (location : Entry) (v : Render.Vars) :
  Render.marker s location = Some v ->
  Render.color v = Render.fillColor v
  /\ (appSection s = "GAME" ->
      Render.color v =
        (if Render.isGameCurrent s location then "#e74c3c"
         else if Render.isGameMastered s location then "#2ecc71"
         else if Render.isReview s location then "#f39c12"
         else "#888")
      /\ Render.radius v = (if Render.isGameCurrent s location then 8 else 5))
  /\ (appSection s <> "GAME" ->
      Render.color v =
        (if Render.isHighlighted s location then "#f1c40f"
         else if status_of (dictStatus s) (code location) =? 2 then "#2ecc71"
         else if status_of (dictStatus s) (code location) =? 1 then "#3498db"
         else "#888")
      /\ Render.radius v = (if Render.isHighlighted s location then 9 else 5)).
Proof.
  unfold Render.marker.
  destruct (String.eqb_spec (appSection s) "GAME") as [Hsec|Hsec].
  - destruct (negb (showAllDots s) && Render.isGameMastered s location);
      [done|].
    intros [= <-].
    destruct (Render.isGameCurrent s location),
      (Render.isGameMastered s location), (Render.isReview s location);
      by repeat split.
  - intros [= <-].
    destruct (Render.isHighlighted s location),
      (Z.eqb_spec (status_of (dictStatus s) (code location)) 1) as [H1|H1],
      (Z.eqb_spec (status_of (dictStatus s) (code location)) 2) as [H2|H2];
      try (rewrite H1 in H2; discriminate H2); by repeat split.
Qed.

Lemma marker_colour_witness :
  exists v, Render.marker (st Sample.answering) Sample.testtown = Some v
            /\ Render.color v = "#e74c3c" /\ Render.radius v = 8.
Proof.
  eexists. split; [reflexivity|].
  destruct (marker_colour (st Sample.answering) Sample.testtown _ eq_refl)
    as (_ & Hgame & _).
  exact (Hgame eq_refl).
Defined.

(** X17: in the game section with "Show Mastered" off, a correct answer
    takes the marker of the answered entry off the map at once, although
    the entry is still the active question until the next one is
    chosen. *)
Theorem answered_marker_disappears (w : World) (q : Entry) :
  currentQuestion (st w) = Some q ->
  isCorrect (mode (st w)) q (userInput (st w)) = true ->
  appSection (st w) = "GAME" -> showAllDots (st w) = false ->
  Render.marker (st (step w Submit)) q = None
  /\ currentQuestion (st (step w Submit)) = Some q.
Proof.
  intros Hq Hok Hsec Hdots.
  assert (appSection (st (step w Submit)) = "GAME"
          /\ showAllDots (st (step w Submit)) = false
          /\ code q ∈ correctList (st (step w Submit))
          /\ currentQuestion (st (step w Submit)) = Some q)
    as (Hsec' & Hdots' & Hin & Hq').
  { unfold step, handler_of, commit, handleSubmit, when. rewrite Hq, Hok.
    destruct (Array_includes (correctList (st w)) (code q)) eqn:Hin;
      destruct (autoNext (st w)); cbn;
      (apply Array_includes_elem_of in Hin || clear Hin);
      repeat split; try done; apply elem_of_app; right; left. }
  split; [by apply marker_hidden | done].
Qed.

Lemma answered_marker_disappears_witness :
  let w := {| st := with_showAllDots false (st Sample.answering);
              timers := [] |} in
  Render.marker (st w) Sample.testtown <> None
  /\ Render.marker (st (step w Submit)) Sample.testtown = None.
Proof.
  cbn zeta. split; [discriminate|].
  by apply (answered_marker_disappears
              {| st := with_showAllDots false (st Sample.answering);
                 timers := [] |} Sample.testtown).
Defined.

(** ** Saving and reading back *)

Section SaveFacts.

Import Json Save.

Lemma parse_string_plain (c : ascii) (tail : list ascii) :
  Ascii.eqb c dquote = false -> Ascii.eqb c backslash = false ->
  (N_of_ascii c <? 32)%N = false ->
  parse_string (c :: tail)
  = ('(us, r) ← parse_string tail; Some (N_of_ascii c :: us, r)).
Proof. intros H1 H2 H3. cbn [parse_string]. by rewrite H1, H2, H3. Qed.

Lemma parse_string_escape (e : ascii) (tail : list ascii) :
  parse_string (backslash :: e :: tail)
  = if Ascii.eqb e dquote
    then '(us, r) ← parse_string tail; Some (34%N :: us, r)
    else if Ascii.eqb e backslash
    then '(us, r) ← parse_string tail; Some (92%N :: us, r)
    else if is_char "/" e
    then '(us, r) ← parse_string tail; Some (47%N :: us, r)
    else if is_char "b" e
    then '(us, r) ← parse_string tail; Some (8%N :: us, r)
    else if is_char "f" e
    then '(us, r) ← parse_string tail; Some (12%N :: us, r)
    else if is_char "n" e
    then '(us, r) ← parse_string tail; Some (10%N :: us, r)
    else if is_char "r" e
    then '(us, r) ← parse_string tail; Some (13%N :: us, r)
    else if is_char "t" e
    then '(us, r) ← parse_string tail; Some (9%N :: us, r)
    else if is_char "u" e
    then match tail with
         | h1 :: h2 :: h3 :: h4 :: tail' =>
             match hex_digit h1, hex_digit h2, hex_digit h3, hex_digit h4 with
             | Some a, Some b, Some c, Some d =>
                 '(us, r) ← parse_string tail';
                 Some ((((a * 16 + b) * 16 + c) * 16 + d)%N :: us, r)
             | _, _, _, _ => None
             end
         | _ => None
         end
    else None.
Proof. reflexivity. Qed.

Lemma hex_digit_hex (k : N) : (k < 16)%N -> hex_digit (hex k) = Some k.
Proof.
  intros Hk. destruct k as [|p]; [done|].
  do 5 (destruct p as [p|p|]; try done; try lia).
Qed.

(** A string written by [JSON.stringify] is read back by the parser, code
    unit for code unit. *)
Lemma parse_string_quote (cs rest : list ascii) :
  parse_string (flat_map quote_unit cs ++ dquote :: rest)
  = Some (map N_of_ascii cs, rest).
Proof.
  induction cs as [|c cs IH]; [done|].
  cbn [flat_map map]. rewrite <- app_assoc. unfold quote_unit at 1.
  destruct (Ascii.eqb_spec c dquote) as [->|Hq].
  { cbn [app]. by rewrite parse_string_escape, IH. }
  destruct (Ascii.eqb_spec c backslash) as [->|Hb].
  { cbn [app]. by rewrite parse_string_escape, IH. }
  assert (Ascii.eqb c dquote = false) as Hq' by (by apply Ascii.eqb_neq).
  assert (Ascii.eqb c backslash = false) as Hb' by (by apply Ascii.eqb_neq).
  repeat
    match goal with
    | |- context [(N_of_ascii c =? ?k)%N] =>
        destruct (N.eqb_spec (N_of_ascii c) k) as [->|?];
        [cbn [app list_ascii_of_string]; by rewrite parse_string_escape, IH|]
    end.
  destruct (N.ltb_spec (N_of_ascii c) 32) as [Hlt|Hge].
  - cbn [app list_ascii_of_string]. rewrite parse_string_escape.
    change (Ascii.eqb "u" dquote) with false.
    change (Ascii.eqb "u" backslash) with false. cbv iota.
    change (is_char "/" "u") with false. change (is_char "b" "u") with false.
    change (is_char "f" "u") with false. change (is_char "n" "u") with false.
    change (is_char "r" "u") with false. change (is_char "t" "u") with false.
    change (is_char "u" "u") with true. cbv iota.
    change (hex_digit "0") with (Some 0%N). cbv iota.
    rewrite !hex_digit_hex, IH by
      (first [apply N.mod_lt; lia | apply N.Div0.div_lt_upper_bound; lia]).
    cbn [mbind option_bind]. do 2 f_equal. f_equal.
    pose proof (N.div_mod (N_of_ascii c) 16). lia.
  - cbn [app]. rewrite parse_string_plain, IH; try done.
    by apply N.ltb_ge.
Qed.

Lemma parse_value_quote (fuel : nat) (s : string) (rest : list ascii) :
  parse_value (S fuel) (quote s ++ rest) = Some (json_string s, rest).
Proof.
  unfold quote, json_string. cbn [parse_value app].
  unfold value_body. cbn [skip_ws].
  change (is_ws dquote) with false. cbv iota.
  change (is_char "n" dquote) with false.
  change (is_char "t" dquote) with false.
  change (is_char "f" dquote) with false.
  change (Ascii.eqb dquote dquote) with true. cbv iota.
  rewrite <- app_assoc. cbn [app]. by rewrite parse_string_quote.
Qed.

Lemma parse_elements_quotes (x : string) (xs : list string) (rest : list ascii) :
  parse_elements (S (length (x :: xs)))
                 (join (map quote (x :: xs)) ++ "]"%char :: rest)
  = Some (map json_string (x :: xs), rest).
Proof.
  revert x. induction xs as [|y ys IH]; intros x.
  - cbn [map join length parse_elements]. unfold elements_body.
    by rewrite parse_value_quote.
  - change (join (map quote (x :: y :: ys)))
      with (quote x ++ ","%char :: join (map quote (y :: ys))).
    rewrite <- app_assoc.
    change (parse_elements (S (length (x :: y :: ys))))
      with (elements_body (parse_value (length (x :: y :: ys)))
                          (parse_elements (S (length (y :: ys))))).
    unfold elements_body. cbn [length].
    rewrite parse_value_quote. cbn [mbind option_bind app skip_ws].
    change (is_ws ","%char) with false. cbv iota.
    change (is_char "," ","%char) with true. cbv iota.
    change (S (S (length ys))) with (S (length (y :: ys))).
    by rewrite IH.
Qed.

Lemma parse_stringify_strings (arr : list string) :
  parse (stringify_strings arr) = Normal (json_strings arr).
Proof.
  apply (parse_complete _ (S (S (length arr))) _ []); [|done].
  unfold stringify_strings. rewrite list_ascii_of_string_of_list_ascii.
  destruct arr as [|x xs]; [done|].
  change (parse_value (S (S (length (x :: xs)))))
    with (value_body (parse_elements (S (length (x :: xs))))
                     (parse_members (S (length (x :: xs))))).
  unfold value_body. cbn [skip_ws].
  change (is_ws "["%char) with false. cbv iota.
  change (is_char "n" "["%char) with false.
  change (is_char "t" "["%char) with false.
  change (is_char "f" "["%char) with false.
  change (Ascii.eqb "["%char dquote) with false.
  change (is_char "[" "["%char) with true. cbv iota.
  rewrite parse_elements_quotes.
  change (join (map quote (x :: xs)))
    with (join (quote x :: map quote xs)).
  unfold quote at 1.
  destruct (map quote xs); cbn [join app skip_ws];
    change (is_ws dquote) with false; cbv iota;
    by change (is_char "]" dquote) with false.
Qed.

Lemma stringify_strings_nonempty (arr : list string) :
  String.eqb (stringify_strings arr) "" = false.
Proof. done. Qed.

(** The digits of a decimal number, as written and as read. *)
Lemma digits_of_uint (d : Decimal.uint) :
  digits (list_ascii_of_string (NilEmpty.string_of_uint d))
  = (list_ascii_of_string (NilEmpty.string_of_uint d), []).
Proof. induction d; cbn; by rewrite ?IHd. Qed.

Lemma decimal_of_uint_acc (d : Decimal.uint) (acc : positive) :
  fold_left (fun a c => 10 * a + (Z.of_N (N_of_ascii c) - 48))
            (list_ascii_of_string (NilEmpty.string_of_uint d)) (Z.pos acc)
  = Z.pos (Pos.of_uint_acc d acc).
Proof.
  revert acc. induction d; intros acc; [done|..];
    cbn [NilEmpty.string_of_uint list_ascii_of_string fold_left
         Pos.of_uint_acc];
    rewrite <- IHd; f_equal; cbn; lia.
Qed.

Lemma decimal_of_uint (d : Decimal.uint) :
  Persist.decimal (list_ascii_of_string (NilEmpty.string_of_uint d))
  = Z.of_uint d.
Proof.
  unfold Persist.decimal, Z.of_uint.
  induction d; [done|..];
    cbn [NilEmpty.string_of_uint list_ascii_of_string fold_left Pos.of_uint];
    first [exact IHd | apply decimal_of_uint_acc].
Qed.

Lemma digit_is_plain (c : ascii) :
  is_digit c = true ->
  JsString.is_space c = false /\ is_char "-" c = false
  /\ is_char "+" c = false.
Proof. by destruct c as [[] [] [] [] [] [] [] []]. Qed.

Lemma parseInt10_digits (c : ascii) (s : string) :
  is_digit c = true ->
  digits (list_ascii_of_string s) = (list_ascii_of_string s, []) ->
  Persist.parseInt10 (String c s)
  = Number.of_Z (Persist.decimal (c :: list_ascii_of_string s))
  /\ Persist.parseInt10 (String "-" (String c s))
     = Number.of_Z (- Persist.decimal (c :: list_ascii_of_string s)).
Proof.
  intros Hc Hs. destruct (digit_is_plain c Hc) as (Hspace & Hminus & Hplus).
  unfold Persist.parseInt10.
  cbn [list_ascii_of_string Persist.trim_start]. rewrite Hspace.
  change (JsString.is_space "-") with false. cbv iota.
  change (is_char "-" "-") with true. rewrite Hminus, Hplus. cbv iota.
  cbn [digits]. by rewrite Hc, Hs.
Qed.

Lemma parseInt10_of_uint (d : Decimal.uint) :
  d <> Decimal.Nil ->
  Persist.parseInt10 (NilEmpty.string_of_uint d) = Number.of_Z (Z.of_uint d)
  /\ Persist.parseInt10 (String "-" (NilEmpty.string_of_uint d))
     = Number.of_Z (- Z.of_uint d).
Proof.
  intros Hd. rewrite <- decimal_of_uint.
  destruct d; [done|..]; cbn [NilEmpty.string_of_uint];
    by apply parseInt10_digits; [|apply digits_of_uint].
Qed.

Lemma string_of_uint_nonnil (d : Decimal.uint) :
  d <> Decimal.Nil ->
  NilZero.string_of_uint d = NilEmpty.string_of_uint d.
Proof. by destruct d. Qed.

(** Below [2 ^ 53] an integer is written with all its digits, and
    [parseInt] reads it back. *)
Lemma parseInt10_toString (n : Z) :
  Z.abs n < 2 ^ 53 ->
  Persist.parseInt10 (Number.toString (Number.Fin n)) = Number.Fin n.
Proof.
  intros Hn. transitivity (Number.of_Z n).
  2: { unfold Number.of_Z.
       by destruct (Z.ltb_spec (Z.abs n) (2 ^ 53)); [|lia]. }
  unfold Number.toString.
  destruct (Z.ltb_spec (Z.abs n) (2 ^ 53)) as [_|]; [|lia].
  destruct n as [|p|p]; [done|..];
    cbn [Z.to_int NilZero.string_of_int];
    pose proof (DecimalPos.Unsigned.to_uint_nonnil p) as Hp;
    rewrite string_of_uint_nonnil by done;
    [rewrite (proj1 (parseInt10_of_uint _ Hp))
    |rewrite (proj2 (parseInt10_of_uint _ Hp))];
    unfold Z.of_uint; by rewrite DecimalPos.Unsigned.of_to.
Qed.

Lemma append_nonempty (s t : string) :
  String.eqb t "" = false -> String.eqb (s +:+ t) "" = false.
Proof. by destruct s, t. Qed.

Lemma toString_nonempty (x : Number.t) :
  String.eqb (Number.toString x) "" = false.
Proof.
  destruct x as [|[]|n]; [done..|]. unfold Number.toString.
  destruct (Z.abs n <? 2 ^ 53).
  - destruct n as [|p|p]; [done| |done].
    cbn [Z.to_int NilZero.string_of_int].
    pose proof (DecimalPos.Unsigned.to_uint_nonnil p) as Hp.
    rewrite string_of_uint_nonnil by done. by destruct (Pos.to_uint p).
  - assert (forall a, String.eqb (Number.large a) "" = false) as Hlarge.
    { intros a. unfold Number.large.
      destruct (Number.shortest _ _ _ _) as [[m e] k].
      destruct (e <=? 21); [|by apply append_nonempty].
      unfold Number.decimal_digits.
      destruct (Z.to_N m) as [|p]; [done|]. cbn [N.to_uint].
      pose proof (DecimalPos.Unsigned.to_uint_nonnil p) as Hp.
      by destruct (Pos.to_uint p). }
    destruct (n <? 0); [done | apply Hlarge].
Qed.

(** What the initializers find after the save effects of [s]. *)
Lemma save_lookup (s : State) (ls : gmap string string) :
  save s ls !! "uk_codes_mastered" = Some (stringify_strings (correctList s))
  /\ save s ls !! "uk_codes_review" = Some (stringify_strings (reviewList s))
  /\ save s ls !! "uk_codes_mistakes"
     = Some (Number.toString (mistakeCount s))
  /\ save s ls !! "uk_codes_mode" = Some (mode s)
  /\ save s ls !! "uk_codes_auto_next" = Some (stringify_bool (autoNext s))
  /\ save s ls !! "uk_codes_show_dots" = Some (stringify_bool (showAllDots s))
  /\ save s ls !! "uk_codes_dict_status" = ls !! "uk_codes_dict_status".
Proof.
  unfold save, writes, setItem. cbn [fold_left fst snd].
  repeat split; by simplify_map_eq.
Qed.

(** X18: the mastered list and the review list survive a reload: what the
    save effects write for them, [JSON.parse] in the initializers reads
    back as the array of the same strings in the same order, whatever
    characters the codes contain. *)
Theorem lists_round_trip (s : State) (ls : gmap string string) :
  Persist.init_correctList (save s ls)
  = Normal (json_strings (correctList s))
  /\ Persist.init_reviewList (save s ls)
     = Normal (json_strings (reviewList s)).
Proof.
  destruct (save_lookup s ls) as (Hc & Hr & _).
  unfold Persist.init_correctList, Persist.init_reviewList, Persist.getItem,
    Persist.parse_or.
  by rewrite Hc, Hr, !stringify_strings_nonempty, !parse_stringify_strings.
Qed.

(** X19: the settings survive a reload: the two flags are read back as
    saved, and so is the mode, except that an empty mode is read back as
    "nameToCode".  The mistake counter is read back as [parseInt] reads
    its text: as saved on the integers below [2 ^ 53] in size.  A counter
    of [2 ^ 64] is written with the seventeen digits that tell it apart
    and read back as saved; a counter of [10 ^ 21] is written in exponent
    form and read back as 1; NaN and the infinities are read back as
    NaN. *)
Theorem settings_round_trip (s : State) (ls : gmap string string) :
  Persist.init_autoNext (save s ls) = Normal (Json.Bool (autoNext s))
  /\ Persist.init_showAllDots (save s ls) = Normal (Json.Bool (showAllDots s))
  /\ Persist.init_mode (save s ls)
     = (if String.eqb (mode s) "" then "nameToCode" else mode s)
  /\ Persist.init_mistakeCount (save s ls)
     = Persist.parseInt10 (Number.toString (mistakeCount s))
  /\ (forall n : Z,
        mistakeCount s = Number.Fin n -> Z.abs n < 2 ^ 53 ->
        Persist.init_mistakeCount (save s ls) = Number.Fin n)
  /\ (mistakeCount s = Number.Fin (2 ^ 64) ->
      Number.toString (mistakeCount s) = "18446744073709552000"
      /\ Persist.init_mistakeCount (save s ls) = Number.Fin (2 ^ 64))
  /\ (mistakeCount s = Number.Fin (10 ^ 21) ->
      Number.toString (mistakeCount s) = "1e+21"
      /\ Persist.init_mistakeCount (save s ls) = Number.Fin 1)
  /\ (mistakeCount s = Number.NaN
      \/ (exists negative, mistakeCount s = Number.Infinity negative) ->
      Persist.init_mistakeCount (save s ls) = Number.NaN).
Proof.
  destruct (save_lookup s ls) as (_ & _ & Hm & Hmode & Ha & Hd & _).
  assert (Persist.init_mistakeCount (save s ls)
          = Persist.parseInt10 (Number.toString (mistakeCount s))) as Hcount.
  { unfold Persist.init_mistakeCount, Persist.getItem.
    by rewrite Hm, toString_nonempty. }
  unfold Persist.init_autoNext, Persist.init_showAllDots, Persist.init_mode,
    Persist.getItem, Persist.or_else.
  rewrite Hmode, Ha, Hd.
  split; [by destruct (autoNext s)|]. split; [by destruct (showAllDots s)|].
  split; [done|]. split; [exact Hcount|].
  split; [|split; [|split]].
  - intros n Hn Hsmall. by rewrite Hcount, Hn, parseInt10_toString.
  - intros Hn. rewrite Hcount, Hn. by vm_compute.
  - intros Hn. rewrite Hcount, Hn. by vm_compute.
  - intros [Hn | [[] Hn]]; rewrite Hcount, Hn; by vm_compute.
Qed.

Lemma settings_round_trip_witness :
  Persist.init_mistakeCount (save (st Sample.all_mastered) ∅) = Number.Fin 3
  /\ Persist.init_autoNext (save (st Sample.all_mastered) ∅)
     = Normal (Json.Bool true).
Proof.
  destruct (settings_round_trip (st Sample.all_mastered) ∅)
    as (Hauto & _ & _ & _ & Hcount & _).
  split; [|exact Hauto].
  apply (Hcount 3); [reflexivity | by vm_compute].
Defined.

End SaveFacts.

(** ** The progress bar and the status button *)

(** X20: when the mastered list has no duplicate and holds only codes of
    the catalog, and no two catalog entries share a code, the progress
    bar is marked complete exactly when the pending pool is empty. *)
Theorem bar_complete_iff_nothing_pending (s : State) :
  NoDup (correctList s) -> NoDup (map code (areaCodes s)) ->
  (forall c, c ∈ correctList s -> c ∈ map code (areaCodes s)) ->
  Render.bar_complete s = true <-> pending s = [].
Proof.
  intros Hnd Hcat Hsub. unfold Render.bar_complete.
  rewrite Nat.eqb_eq, pending_nil, <- (length_map code (areaCodes s)).
  assert (correctList s ⊆+ map code (areaCodes s)) as Hle
    by (by apply NoDup_submseteq).
  split.
  - intros Hlen e He.
    rewrite (submseteq_length_Permutation _ _ Hle) by lia.
    apply list_elem_of_fmap. by exists e.
  - intros Hall.
    assert (map code (areaCodes s) ⊆+ correctList s) as Hge.
    { apply NoDup_submseteq; [done|].
      intros c (e & -> & He)%list_elem_of_fmap. by apply Hall. }
    apply submseteq_length in Hle, Hge. lia.
Qed.

Lemma bar_complete_iff_nothing_pending_witness :
  Render.bar_complete (st Sample.all_mastered) = true
  <-> pending (st Sample.all_mastered) = [].
Proof.
  apply (bar_complete_iff_nothing_pending (st Sample.all_mastered)).
  - apply NoDup_singleton.
  - apply NoDup_singleton.
  - by intros c Hc.
Defined.

(** X21: the status button of a dictionary row reads "New" for a code
    without a status, and each click moves a row with a status 0, 1 or 2
    on by one step of New, Learning, Done, New. *)
Theorem status_label_cycle (w : World) (item : Entry) :
  (dictStatus (st w) !! code item = None ->
   Render.statusText (st w) item = "New")
  /\ (is_status (status_of (dictStatus (st w)) (code item)) ->
      Render.statusText (st (step w (CycleStatus (code item)))) item =
      (if status_of (dictStatus (st w)) (code item) =? 0 then "Learning"
       else if status_of (dictStatus (st w)) (code item) =? 1 then "Done"
       else "New")).
Proof.
  split.
  - intros Hnone. unfold Render.statusText, status_of. by rewrite Hnone.
  - intros Hv. rewrite cycleStatus_commit. unfold Render.statusText.
    cbn [st dictStatus with_dictStatus]. rewrite status_of_insert.
    unfold is_status in Hv.
    assert (status_of (dictStatus (st w)) (code item) = 0
            \/ status_of (dictStatus (st w)) (code item) = 1
            \/ status_of (dictStatus (st w)) (code item) = 2)
      as [-> | [-> | ->]] by lia; done.
Qed.

Lemma status_label_cycle_witness :
  Render.statusText (st Sample.all_mastered) Sample.testtown = "Done"
  /\ Render.statusText
       (st (step Sample.all_mastered (CycleStatus "01234"))) Sample.testtown
     = "New".
Proof.
  split; [reflexivity|].
  apply (status_label_cycle Sample.all_mastered Sample.testtown).
  unfold is_status. vm_compute. split; discriminate.
Defined.
